(** * MyTrail route pipeline: crossing removal, ranking, candidate assembly

    A shallow embedding of the route-candidate pipeline of the MyTrail backend
    ([app/services/route/*.py], [app/services/route_service.py]) and the
    properties its specification states about it.

    Python [float] is IEEE 754 binary64, which is exactly Rocq's primitive
    [float]; arithmetic and comparisons below are the kernel's, so the
    geometric predicates evaluate as they do in CPython. *)

From Stdlib Require Import Floats.
From stdpp Require Import gmap strings list sorting pretty.

Set Warnings "-inexact-float".

(** ** Data model *)

(** A place as [GoogleMapService._convert_places_to_standard_format] builds
    it, restricted to the keys the pipeline reads.  [search_category] is
    absent until [generate_candidate_routes] tags the place. *)
Record place := Place {
  place_id : string;
  name : string;
  location : float * float;          (* {"lat": .., "lng": ..} *)
  category : string;
  search_category : option string;
  rating : float;
  distance_km : float
}.

(** [app/models/request.py]: the criteria of one request. *)
Module Request.
Record RouteCriteria := {
  center : float * float;            (* Center(lat, lng) *)
  radius_km : float;
  duration_min : option Z;
  distance_km : option float;
  include_categories : list string;
  avoid_categories : list string;
  pet_friendly : bool;
  elevation_gain_min_m : option Z;
  route_type : string;
  time_window : option string
}.

(* a sample request: the centre used by the end-to-end scenarios *)
Definition crit0 : RouteCriteria :=
  {| center := (1.2834, 103.8607)%float; radius_km := 4%float;
     duration_min := Some 30%Z; distance_km := None;
     include_categories := []; avoid_categories := [];
     pet_friendly := false; elevation_gain_min_m := None;
     route_type := "loop"; time_window := None |}.

End Request.

(** What [get_directions] returns when it finds a route (the dict built by
    [_convert_routes_response]).  Polyline and viewport are passed through
    unread; they are carried as their serialised text. *)
Record route_data := RouteData {
  overview_polyline : string;
  duration : string;
  distance : Z;
  viewport : string
}.

(** The candidate dict assembled by [generate_candidate_routes].  The key
    ["score"] is optional: a dict either has it or not. *)
Record waypoints_info := WaypointsInfo {
  count : nat;
  places : list place;
  place_ids : list string
}.

Record route_metadata := RouteMetadata {
  center : float * float;
  search_radius_km : float;
  route_type : string;
  categories_used : list string
}.

Record route := Route {
  route_id : string;                 (* "id" *)
  route_info : route_data;
  waypoints : waypoints_info;
  metadata : route_metadata;
  criteria : Request.RouteCriteria;
  score : option float
}.

(** ** Builtins *)

Module Py.

(** [sorted] and [list.sort] are stable and compare with [<] only;
    [before y x] says that [y], met later in the input than [x], must
    still come first.  When [<] is a strict weak order on the keys at hand
    (no key is NaN) every stable sort returns this list; with NaN keys the
    result of CPython's sort depends on its run detection, which is not
    modelled, so nothing general is stated below for that case beyond the
    fact that the result is a reordering.  The one input with a NaN key
    that is evaluated below, the keys 3, NaN, 5, 4 sorted descending, is
    returned unchanged by CPython as well: no [<] test along it succeeds,
    so the whole list counts as one sorted run. *)
Section Sort.
Context {A : Type} (before : A → A → bool).

Fixpoint insert (x : A) (l : list A) : list A :=
  match l with
  | [] => [x]
  | y :: l' => if before y x then y :: insert x l' else x :: y :: l'
  end.

Definition sort (l : list A) : list A := foldr insert [] l.

End Sort.

(* sorted(l, key=key) *)
Definition sorted {A} (key : A → float) (l : list A) : list A :=
  sort (λ y x, key y <? key x)%float l.

(* sorted(l, key=key, reverse=True) *)
Definition sorted_reverse {A} (key : A → float) (l : list A) : list A :=
  sort (λ y x, key x <? key y)%float l.

End Py.

(** ** two_opt_optimizer.py *)

Module TwoOpt.

Local Open Scope float_scope.

Definition point : Type := float * float.

(* builtin min/max on two floats: the first argument is kept unless the
   second compares strictly below (above) it *)
Definition py_min (a b : float) : float := if b <? a then b else a.
Definition py_max (a b : float) : float := if a <? b then b else a.

Definition _extract_point (waypoint : place) : point := location waypoint.

Definition _orientation (a b c : point) : nat :=
  let '(ax, ay) := a in
  let '(bx, by_) := b in
  let '(cx, cy) := c in
  let val := (by_ - ay) * (cx - bx) - (bx - ax) * (cy - by_) in
  if abs val <? 1e-12 then 0%nat
  else if 0 <? val then 1%nat else 2%nat.

Definition _on_segment (a b c : point) : bool :=
  let '(ax, ay) := a in
  let '(bx, by_) := b in
  let '(cx, cy) := c in
  (py_min ax cx - 1e-12 <=? bx) && (bx <=? py_max ax cx + 1e-12)
  && (py_min ay cy - 1e-12 <=? by_) && (by_ <=? py_max ay cy + 1e-12).

Definition _segments_intersect (p1 p2 p3 p4 : point) : bool :=
  let o1 := _orientation p1 p2 p3 in
  let o2 := _orientation p1 p2 p4 in
  let o3 := _orientation p3 p4 p1 in
  let o4 := _orientation p3 p4 p2 in
  if negb (o1 =? o2)%nat && negb (o3 =? o4)%nat then true
  else if (o1 =? 0)%nat && _on_segment p1 p3 p2 then true
  else if (o2 =? 0)%nat && _on_segment p1 p4 p2 then true
  else if (o3 =? 0)%nat && _on_segment p3 p1 p4 then true
  else if (o4 =? 0)%nat && _on_segment p3 p2 p4 then true
  else false.

(** The body of the two nested [for] loops at indices [i], [j]: the test on
    edges [(i, i+1)] and [(j, j+1)].  The four subscripts are in range for
    every pair the loops visit. *)
Definition edges_intersect (optimized : list place) (i j : nat) : bool :=
  match optimized !! i, optimized !! (i + 1)%nat,
        optimized !! j, optimized !! (j + 1)%nat with
  | Some w1, Some w2, Some w3, Some w4 =>
      _segments_intersect (_extract_point w1) (_extract_point w2)
                          (_extract_point w3) (_extract_point w4)
  | _, _, _, _ => false
  end.

(* for j in range(i + 2, len(optimized) - 1): first j whose test succeeds *)
Definition scan_inner (optimized : list place) (i : nat) : option nat :=
  find (edges_intersect optimized i)
       (seq (i + 2) (length optimized - 1 - (i + 2))).

(* for i in range(len(optimized) - 3): first i whose inner loop breaks *)
Fixpoint scan_outer (optimized : list place) (is_ : list nat)
  : option (nat * nat) :=
  match is_ with
  | [] => None
  | i :: rest =>
      match scan_inner optimized i with
      | Some j => Some (i, j)
      | None => scan_outer optimized rest
      end
  end.

Definition first_crossing (optimized : list place) : option (nat * nat) :=
  scan_outer optimized (seq 0 (length optimized - 3)).

(* l[lo:hi] = reversed(l[lo:hi]) *)
Definition reverse_slice {A} (l : list A) (lo hi : nat) : list A :=
  take lo l ++ reverse (take (hi - lo) (drop lo l)) ++ drop hi l.

(** The [while improved] loop.  One unit of fuel pays for one full pass of
    the loop body; [None] means the fuel ran out before a pass found no
    intersecting pair. *)
Fixpoint two_opt_loop (fuel : nat) (optimized : list place)
  : option (list place) :=
  match fuel with
  | O => None
  | S fuel' =>
      match first_crossing optimized with
      | None => Some optimized
      | Some (i, j) =>
          two_opt_loop fuel' (reverse_slice optimized (i + 1) (j + 1))
      end
  end.

Definition optimize_waypoint_order_by_two_opt (fuel : nat)
  (waypoints : list place) : option (list place) :=
  if (length waypoints <? 4)%nat then Some waypoints
  else two_opt_loop fuel waypoints.

(** Two non-adjacent edges of [l] that satisfy [_segments_intersect]. *)
Definition crossing (l : list place) (i j : nat) : Prop :=
  ∃ w1 w2 w3 w4,
    l !! i = Some w1 ∧ l !! (i + 1)%nat = Some w2 ∧
    l !! j = Some w3 ∧ l !! (j + 1)%nat = Some w4 ∧
    _segments_intersect (_extract_point w1) (_extract_point w2)
                        (_extract_point w3) (_extract_point w4) = true.

Definition crossing_free (l : list place) : Prop :=
  ∀ i j, (i + 2 ≤ j)%nat → ¬ crossing l i j.

(** Sample inputs. *)
Definition wp (tag : string) (lat lng : float) : place :=
  Place tag tag (lat, lng) "park" (Some "park") 4.5 0.5.

(* the bowtie: the diagonal ordering of a unit square *)
Definition bowtie : list place :=
  [wp "a" 0 0; wp "b" 1 1; wp "c" 1 0; wp "d" 0 1].

(* four distinct places along one straight line *)
Definition collinear4 : list place :=
  [wp "a" 0 0; wp "b" 2 0; wp "c" 3 0; wp "d" 1 0].

End TwoOpt.

(** ** ranking_service.py *)

Module Ranking.

(** Route dicts are mutable objects that [rank_routes] updates in place and
    returns by reference, so candidates are addresses into a store. *)
Definition loc := nat.

(** [self._model]: it may or may not have a [predict_batch] method.  Either
    method reads the routes and returns the scores.  This is a model whose
    call returns and whose scores are floats; what happens when the call
    raises or [float(score)] rejects a score is in [Raising] below. *)
Record scorer_model := ScorerModel {
  predict_batch : option (gmap loc route → list loc → list float);
  predict : gmap loc route → list loc → list float
}.

Record state := State {
  heap : gmap loc route;
  scorer_calls : nat                 (* calls made to the model so far *)
}.

(* route["score"] = predicted *)
Definition set_score (predicted : float) (r : route) : route :=
  {| route_id := route_id r; route_info := route_info r;
     waypoints := waypoints r; metadata := metadata r;
     criteria := criteria r; score := Some predicted |}.

(* for route, score in zip(routes, scores): route["score"] = float(score) *)
Definition write_scores (h : gmap loc route) (routes : list loc)
  (scores : list float) : gmap loc route :=
  foldl (λ h' '(r, s), alter (set_score s) r h') h (zip routes scores).

(* route.get("score", 0.0) *)
Definition sort_key (h : gmap loc route) (r : loc) : float :=
  match h !! r with
  | Some d => default 0%float (score d)
  | None => 0%float
  end.

(* the one call made to the model *)
Definition model_scores (m : scorer_model) (h : gmap loc route)
  (routes : list loc) : list float :=
  match predict_batch m with
  | Some batch => batch h routes
  | None => predict m h routes
  end.

Definition rank_routes (m : scorer_model) (routes : list loc) (σ : state)
  : list loc * state :=
  match routes with
  | [] => ([], σ)
  | _ :: _ =>
      let scores := model_scores m (heap σ) routes in
      let h := write_scores (heap σ) routes scores in
      (Py.sorted_reverse (sort_key h) routes,
       {| heap := h; scorer_calls := S (scorer_calls σ) |})
  end.

(** Two route dicts that agree on every key but ["score"]. *)
Definition same_but_score (r r' : route) : Prop :=
  route_id r = route_id r' ∧ route_info r = route_info r' ∧
  waypoints r = waypoints r' ∧ metadata r = metadata r' ∧
  criteria r = criteria r'.

(** Scores in descending order along [out]. *)
Definition descending (h : gmap loc route) (out : list loc) : Prop :=
  StronglySorted (λ a b, (sort_key h b <=? sort_key h a)%float = true) out.

(** Candidates of equal score stand in [out] in the order they have in
    [routes]. *)
Definition ties_keep_order (h : gmap loc route) (routes out : list loc)
  : Prop :=
  ∀ k : float,
    filter (λ r, (sort_key h r =? k)%float = true) out
    = filter (λ r, (sort_key h r =? k)%float = true) routes.

(** A candidate whose score is not finite has only such candidates after
    it. *)
Definition nonfinite_ranked_last (h : gmap loc route) (out : list loc)
  : Prop :=
  ∀ pre r post, out = pre ++ r :: post →
    is_finite (sort_key h r) = false →
    Forall (λ r', is_finite (sort_key h r') = false) post.

(** Sample inputs. *)
Definition cand (rid : string) : route :=
  {| route_id := rid;
     route_info := RouteData "poly" "900s" 1200 "vp";
     waypoints := WaypointsInfo 0 [] [];
     metadata := RouteMetadata (1.2834, 103.8607)%float 2%float "loop" [];
     criteria := Request.crit0; score := None |}.

Definition heap4 : gmap loc route :=
  <[0 := cand "route_1"]> (<[1 := cand "route_2"]>
    (<[2 := cand "route_3"]> (<[3 := cand "route_4"]> ∅))).

Definition fixed_scores (scores : list float) : scorer_model :=
  {| predict_batch := Some (λ _ _, scores); predict := λ _ _, [] |}.

End Ranking.

(** ** generation_service.py *)

Module Generation.

(** A call to an external provider returns or raises. *)
Inductive outcome (A : Type) : Type :=
  | Returns (a : A)
  | Raises.
Arguments Returns {A} a.
Arguments Raises {A}.

(** [self.map_service].  [find_nearby_places] is asked once per category;
    [get_directions] is asked once per attempt and may answer the same
    question differently each time, so it also takes the attempt index.  A
    falsy answer (an empty dict) is [None]. *)
Record map_service := MapService {
  find_nearby_places :
    float * float → float → list string → outcome (list place);
  get_directions :
    nat → float * float → list string → outcome (option route_data)
}.

Definition target_categories : list string :=
  ["park"; "nature"; "attraction"; "restaurant"].

(** [place["search_category"] = category], on the value of the dict.  The
    assignment is made in the dict the provider returned; the loop that
    makes it is modelled twice below, on values
    ([all_waypoint_candidates]: right when the provider hands out each dict
    once, as [GoogleMapService] does, which builds them afresh on every
    call) and on a store of dicts ([pool_in_place]: any provider). *)
Definition tag (cat : string) (p : place) : place :=
  {| place_id := place_id p; name := name p; location := location p;
     category := category p; search_category := Some cat;
     rating := rating p; distance_km := distance_km p |}.

(** The module [random].  [draws n] is the [n]-th raw draw of the
    generator. *)

(* random.randint(lo, hi), for lo ≤ hi *)
Definition randint (draw : nat) (lo hi : nat) : nat :=
  lo + draw `mod` (hi - lo + 1).

(* random.sample(population, k), for k ≤ len(population): the elements at
   k distinct positions, in the order they are drawn *)
Fixpoint sample {A} (draws : nat → nat) (population : list A) (k : nat)
  : list A :=
  match k with
  | O => []
  | S k' =>
      let j := draws 0 `mod` length population in
      match population !! j with
      | Some x => x :: sample (λ n, draws (S n)) (delete j population) k'
      | None => []
      end
  end.

Section Service.
(** The nested function [calculate_bearing]: its value rests on libm's
    [sin], [cos] and [atan2] and only orders the waypoints; it is taken as
    given, a total function as it is on the finite coordinates a provider
    supplies. *)
Context (calculate_bearing : float → float → float → float → float).
(** [draw i n]: the [n]-th draw made during attempt [i]. *)
Context (draw : nat → nat → nat).
Context (ms : map_service).

Definition _optimize_waypoint_order_by_angle (fuel : nat)
  (center : float * float) (waypoints : list place) : option (list place) :=
  if (length waypoints <=? 1)%nat then Some waypoints
  else
    let waypoints_with_angle :=
      map (λ wp, (wp, calculate_bearing center.1 center.2
                        (location wp).1 (location wp).2)) waypoints in
    let optimized := map fst (Py.sorted snd waypoints_with_angle) in
    TwoOpt.optimize_waypoint_order_by_two_opt fuel optimized.

(* one turn of [for category in target_categories] *)
Definition search_category_places (center_tuple : float * float)
  (search_radius : float) (category : string) : list place :=
  match find_nearby_places ms center_tuple search_radius [category] with
  | Returns places => map (tag category) places
  | Raises => []
  end.

Definition all_waypoint_candidates (criteria : Request.RouteCriteria)
  : list place :=
  let center_tuple := Request.center criteria in
  let search_radius := (Request.radius_km criteria / 2)%float in
  flat_map (search_category_places center_tuple search_radius)
    target_categories.

(* num_waypoints = random.randint(2, 3), then all candidates or a sample *)
Definition selected_waypoints (candidates : list place) (route_idx : nat)
  : list place :=
  let num_waypoints := randint (draw route_idx 0) 2 3 in
  if (length candidates <? num_waypoints)%nat then candidates
  else sample (λ n, draw route_idx (S n)) candidates num_waypoints.

(** One turn of [for route_idx in range(max_routes)].  The outer [None] is
    a crossing optimizer that does not return; [Some None] is an attempt
    that is dropped ([continue]); [Some (Some c)] appends [c]. *)
Definition attempt (fuel : nat) (criteria : Request.RouteCriteria)
  (candidates : list place) (route_idx : nat) : option (option route) :=
  let center_tuple := Request.center criteria in
  let search_radius := (Request.radius_km criteria / 2)%float in
  optimized_waypoints ←
    _optimize_waypoint_order_by_angle fuel center_tuple
      (selected_waypoints candidates route_idx);
  let waypoint_place_ids := map place_id optimized_waypoints in
  Some
    match get_directions ms route_idx center_tuple waypoint_place_ids with
    | Raises => None
    | Returns None => None
    | Returns (Some rd) =>
        (* p["search_category"] raises KeyError on an untagged place; the
           enclosing [try] drops the attempt *)
        match mapM search_category optimized_waypoints with
        | None => None
        | Some cats =>
            Some {|
              route_id := "route_" +:+ pretty (route_idx + 1);
              route_info := rd;
              waypoints := {|
                count := length optimized_waypoints;
                places := optimized_waypoints;
                place_ids := waypoint_place_ids |};
              metadata := {|
                center := center_tuple;
                search_radius_km := search_radius;
                route_type := Request.route_type criteria;
                (* list(set([...])) : the distinct values, in the set's
                   iteration order (here the one of [elements]) *)
                categories_used :=
                  elements (list_to_set cats : gset string) |};
              criteria := criteria;
              score := None |}
        end
    end.

Fixpoint attempts (fuel : nat) (criteria : Request.RouteCriteria)
  (candidates : list place) (idxs : list nat) : option (list route) :=
  match idxs with
  | [] => Some []
  | route_idx :: rest =>
      c ← attempt fuel criteria candidates route_idx;
      cs ← attempts fuel criteria candidates rest;
      Some (match c with Some r => r :: cs | None => cs end)
  end.

Definition generate_candidate_routes (fuel : nat)
  (criteria : Request.RouteCriteria) (max_routes : nat)
  : option (list route) :=
  let candidates := all_waypoint_candidates criteria in
  match candidates with
  | [] => Some []
  | _ :: _ => attempts fuel criteria candidates (seq 0 max_routes)
  end.

End Service.

(** *** The pool, built in place

    Place dicts as objects: addresses into a store.  The provider answers
    a query with the addresses of the dicts it returns, and may return a
    dict more than once. *)
Definition ploc := nat.

Definition place_provider : Type :=
  float * float → float → list string → outcome (list ploc).

(* place["search_category"] = category
   all_waypoint_candidates.append(place) *)
Definition tag_in_place (category : string)
  (st : gmap ploc place * list ploc) (p : ploc)
  : gmap ploc place * list ploc :=
  (alter (tag category) p st.1, st.2 ++ [p]).

(* one turn of [for category in target_categories], on (store, pool) *)
Definition search_in_place (find : place_provider)
  (center_tuple : float * float) (search_radius : float)
  (st : gmap ploc place * list ploc) (category : string)
  : gmap ploc place * list ploc :=
  match find center_tuple search_radius [category] with
  | Returns places => foldl (tag_in_place category) st places
  | Raises => st
  end.

Definition pool_in_place (find : place_provider)
  (criteria : Request.RouteCriteria) (store : gmap ploc place)
  : gmap ploc place * list ploc :=
  foldl (search_in_place find (Request.center criteria)
           (Request.radius_km criteria / 2)%float)
    (store, []) target_categories.

(** The dicts a category query answers with; none when it raises. *)
Definition answered (find : place_provider)
  (criteria : Request.RouteCriteria) (category : string) : list ploc :=
  match find (Request.center criteria) (Request.radius_km criteria / 2)%float
          [category] with
  | Returns places => places
  | Raises => []
  end.

(** The last of the target categories whose query answered with [p]. *)
Definition last_category (find : place_provider)
  (criteria : Request.RouteCriteria) (p : ploc) : option string :=
  last (filter (λ category, p ∈ answered find criteria category)
          target_categories).

(** No dict is handed out for two different categories. *)
Definition fresh_dicts (find : place_provider)
  (criteria : Request.RouteCriteria) : Prop :=
  ∀ c1 c2 p, c1 ∈ target_categories → c2 ∈ target_categories →
    p ∈ answered find criteria c1 → p ∈ answered find criteria c2 → c1 = c2.

(** The provider as [all_waypoint_candidates] sees it: the values of the
    dicts, as the store has them before the loop. *)
Definition value_service (find : place_provider)
  (directions : nat → float * float → list string
                → outcome (option route_data))
  (store : gmap ploc place) : map_service :=
  {| find_nearby_places := λ center radius categories,
       match find center radius categories with
       | Returns places => Returns (omap (λ p, store !! p) places)
       | Raises => Raises
       end;
     get_directions := directions |}.

(** The sampler yields nothing: every category query raises or returns no
    place. *)
Definition sampler_empty (ms : map_service)
  (criteria : Request.RouteCriteria) : Prop :=
  ∀ category, category ∈ target_categories →
    search_category_places ms (Request.center criteria)
      (Request.radius_km criteria / 2)%float category = [].

(** Every directions request raises or returns a falsy answer. *)
Definition directions_fail (ms : map_service) : Prop :=
  ∀ i center ids,
    get_directions ms i center ids = Raises
    ∨ get_directions ms i center ids = Returns None.

(** Sample worlds. *)
Definition gardens : place :=
  Place "p1" "Gardens" (1.2816, 103.8636)%float "park" None 4.6 0.4.

Definition rd0 : route_data := RouteData "poly" "900s" 1200 "vp".

(* one park is found and nothing else; directions always succeed *)
Definition ms_one_park : map_service :=
  {| find_nearby_places := λ _ _ categories,
       if decide (categories = ["park"]) then Returns [gardens]
       else Returns [];
     get_directions := λ _ _ _, Returns (Some rd0) |}.

(* one park is found and nothing else; every directions request raises *)
Definition ms_no_directions : map_service :=
  {| find_nearby_places := λ _ _ categories,
       if decide (categories = ["park"]) then Returns [gardens]
       else Returns [];
     get_directions := λ _ _ _, Raises |}.

(* a provider that answers "park" and "nature" with one and the same dict,
   and raises for the other categories *)
Definition find_aliased : place_provider :=
  λ _ _ categories,
    if decide (categories = ["park"]) then Returns [0]
    else if decide (categories = ["nature"]) then Returns [0]
    else Raises.

(* a provider that answers "park" with dict 0 and "attraction" with dict 1 *)
Definition find_two : place_provider :=
  λ _ _ categories,
    if decide (categories = ["park"]) then Returns [0]
    else if decide (categories = ["attraction"]) then Returns [1]
    else Raises.

Definition bearing0 : float → float → float → float → float :=
  λ _ _ _ _, 0%float.
Definition draw0 : nat → nat → nat := λ _ _, 0.

(* the candidate assembled from the one park *)
Definition route_1 : route :=
  {| route_id := "route_1"; route_info := rd0;
     waypoints := WaypointsInfo 1 [tag "park" gardens] ["p1"];
     metadata :=
       RouteMetadata (1.2834, 103.8607)%float 2%float "loop" ["park"];
     criteria := Request.crit0; score := None |}.

(** The two halves of the assembly contract as the specification words
    them. *)
Definition score_initialised (r : route) : Prop := is_Some (score r).

Definition two_or_three_waypoints (r : route) : Prop :=
  count (waypoints r) = 2 ∨ count (waypoints r) = 3.

End Generation.

(** ** models/response.py and response_builder.py *)

Module Response.
Record LocationPoint := {
  lat : float; lng : float; name : option string
}.
Record Waypoint := {
  place_id : string; wp_name : string; category : string;
  search_category : string; location : LocationPoint;
  rating : float; distance_km : float
}.
Record RouteGeometry := { overview_polyline : string; viewport : string }.
Record Route := {
  id : string; route_name : string; distance : Z; duration : string;
  waypoints : list Waypoint; geometry : RouteGeometry;
  metadata : route_metadata; score : float
}.
Record RouteResponse := {
  success : bool; message : string; routes : list Route;
  total_count : nat;
  criteria : option Request.RouteCriteria     (* {} until it is set *)
}.
End Response.

Module ResponseBuilder.

Definition build_waypoint (place_data : place) : Response.Waypoint :=
  {| Response.place_id := place_id place_data;
     Response.wp_name := name place_data;
     Response.category := category place_data;
     Response.search_category := default "other" (search_category place_data);
     Response.location :=
       {| Response.lat := (location place_data).1;
          Response.lng := (location place_data).2;
          Response.name := Some (name place_data) |};
     Response.rating := rating place_data;
     Response.distance_km := distance_km place_data |}.

Definition route_name (i : nat) (waypoints : list Response.Waypoint)
  : string :=
  match waypoints with
  | [] => "Route " +:+ pretty (i + 1)
  | _ :: _ =>
      let waypoint_names := map Response.wp_name (take 2 waypoints) in
      if (2 <? length waypoints)%nat then
        "Via " +:+ default "" (waypoint_names !! 0) +:+ ", "
        +:+ default "" (waypoint_names !! 1) +:+ " +"
        +:+ pretty (length waypoints - 2) +:+ " more"
      else "Via " +:+ String.concat " & " waypoint_names
  end.

(** The body of the loop for the [i]-th dict.  The records are well typed,
    so the model constructors do not reject them and no turn is skipped. *)
Definition build_route (i : nat) (route_data : route) : Response.Route :=
  let route_info := route_info route_data in
  let waypoints := map build_waypoint (places (waypoints route_data)) in
  {| Response.id := route_id route_data;
     Response.route_name := route_name i waypoints;
     Response.distance := distance route_info;
     Response.duration := duration route_info;
     Response.waypoints := waypoints;
     Response.geometry :=
       {| Response.overview_polyline := overview_polyline route_info;
          Response.viewport := viewport route_info |};
     Response.metadata := metadata route_data;
     Response.score := default 0.8%float (score route_data) |}.

Definition build_response (routes_data : list route)
  : Response.RouteResponse :=
  let routes := imap build_route routes_data in
  {| Response.success := true;
     Response.message :=
       "Successfully generated " +:+ pretty (length routes) +:+ " routes";
     Response.routes := routes;
     Response.total_count := length routes;
     Response.criteria := None |}.

End ResponseBuilder.

(** ** route_service.py *)

Module RouteService.

Section Service.
Context (calculate_bearing : float → float → float → float → float).
Context (draw : nat → nat → nat).
Context (ms : Generation.map_service).
Context (model : Ranking.scorer_model).

(** The candidates are fresh dicts; they are stored at addresses
    [0 .. n-1] and ranked by reference.  [max_routes] keeps its default,
    20. *)
Definition generate_routes (fuel : nat) (criteria : Request.RouteCriteria)
  : option Response.RouteResponse :=
  candidate_routes ←
    Generation.generate_candidate_routes calculate_bearing draw ms fuel
      criteria 20;
  match candidate_routes with
  | [] => Some (ResponseBuilder.build_response [])
  | _ :: _ =>
      let σ := Ranking.State (map_seq 0 candidate_routes) 0 in
      let '(ranked_routes, σ') :=
        Ranking.rank_routes model (seq 0 (length candidate_routes)) σ in
      let response :=
        ResponseBuilder.build_response
          (omap (λ r, Ranking.heap σ' !! r) (take 5 ranked_routes)) in
      Some {| Response.success := Response.success response;
              Response.message := Response.message response;
              Response.routes := Response.routes response;
              Response.total_count := Response.total_count response;
              Response.criteria := Some criteria |}
  end.

End Service.

(* RouteResponse(success=True, routes=[], total_count=0), criteria unset *)
Definition empty_response : Response.RouteResponse :=
  {| Response.success := true;
     Response.message := "Successfully generated 0 routes";
     Response.routes := [];
     Response.total_count := 0;
     Response.criteria := None |}.

End RouteService.

(** ** ranking_service.py and route_service.py with a model that can fail

    [Ranking.scorer_model] is a model whose call returns and whose scores
    are floats.  The code guards neither the call nor [float(score)], and
    [generate_routes] has no [try] around the ranking.  Here the call may
    raise, and each object it returns is one that [float()] accepts
    ([Some], with the float) or rejects ([None]). *)

Module Raising.
Import Generation.

Record scorer_model := ScorerModel {
  predict_batch :
    option (gmap Ranking.loc route → list Ranking.loc
            → outcome (list (option float)));
  predict :
    gmap Ranking.loc route → list Ranking.loc
    → outcome (list (option float))
}.

Definition model_scores (m : scorer_model) (h : gmap Ranking.loc route)
  (routes : list Ranking.loc) : outcome (list (option float)) :=
  match predict_batch m with
  | Some batch => batch h routes
  | None => predict m h routes
  end.

(** The loop over [zip(routes, scores)].  A score that [float()] rejects
    ends it with the exception; the routes before it are already
    written. *)
Fixpoint write_scores (h : gmap Ranking.loc route)
  (pairs : list (Ranking.loc * option float))
  : outcome unit * gmap Ranking.loc route :=
  match pairs with
  | [] => (Returns (), h)
  | (r, Some s) :: rest => write_scores (alter (Ranking.set_score s) r h) rest
  | (_, None) :: _ => (Raises, h)
  end.

Definition rank_routes (m : scorer_model) (routes : list Ranking.loc)
  (σ : Ranking.state) : outcome (list Ranking.loc) * Ranking.state :=
  match routes with
  | [] => (Returns [], σ)
  | _ :: _ =>
      match model_scores m (Ranking.heap σ) routes with
      | Raises =>
          (Raises, {| Ranking.heap := Ranking.heap σ;
                      Ranking.scorer_calls := S (Ranking.scorer_calls σ) |})
      | Returns scores =>
          match write_scores (Ranking.heap σ) (zip routes scores) with
          | (Raises, h) =>
              (Raises,
               {| Ranking.heap := h;
                  Ranking.scorer_calls := S (Ranking.scorer_calls σ) |})
          | (Returns _, h) =>
              (Returns (Py.sorted_reverse (Ranking.sort_key h) routes),
               {| Ranking.heap := h;
                  Ranking.scorer_calls := S (Ranking.scorer_calls σ) |})
          end
      end
  end.

(** The model answers, and [float()] accepts the score of every route that
    [zip] pairs with one. *)
Definition scoring_succeeds (m : scorer_model) (h : gmap Ranking.loc route)
  (routes : list Ranking.loc) : Prop :=
  ∃ scores, model_scores m h routes = Returns scores
            ∧ Forall is_Some (take (length routes) scores).

Section Service.
Context (calculate_bearing : float → float → float → float → float).
Context (draw : nat → nat → nat).
Context (ms : Generation.map_service).
Context (model : scorer_model).

(** [None]: the fuel of the crossing optimizer ran out; [Some Raises]: the
    exception of the ranking leaves [generate_routes]. *)
Definition generate_routes (fuel : nat) (criteria : Request.RouteCriteria)
  : option (outcome Response.RouteResponse) :=
  candidate_routes ←
    Generation.generate_candidate_routes calculate_bearing draw ms fuel
      criteria 20;
  match candidate_routes with
  | [] => Some (Returns (ResponseBuilder.build_response []))
  | _ :: _ =>
      let σ := Ranking.State (map_seq 0 candidate_routes) 0 in
      match rank_routes model (seq 0 (length candidate_routes)) σ with
      | (Raises, _) => Some Raises
      | (Returns ranked_routes, σ') =>
          let response :=
            ResponseBuilder.build_response
              (omap (λ r, Ranking.heap σ' !! r) (take 5 ranked_routes)) in
          Some (Returns
                  {| Response.success := Response.success response;
                     Response.message := Response.message response;
                     Response.routes := Response.routes response;
                     Response.total_count := Response.total_count response;
                     Response.criteria := Some criteria |})
      end
  end.

End Service.

(* a model whose call raises, and one that returns a score float() rejects
   for the second route *)
Definition model_raises : scorer_model :=
  {| predict_batch := None; predict := λ _ _, Raises |}.

Definition model_bad_score : scorer_model :=
  {| predict_batch :=
       Some (λ _ routes,
               Returns (imap (λ i _, if decide (i = 1) then None
                                     else Some 0.5%float) routes));
     predict := λ _ _, Raises |}.

End Raising.

(** ** config/place_types.py *)

Module PlaceTypes.

Definition COMMON_GOOGLE_TYPES : gset string :=
  list_to_set
    ["park"; "national_park"; "tourist_attraction"; "natural_feature";
     "hiking_area"; "zoo"; "aquarium"; "marina";
     "restaurant"; "cafe"; "coffee_shop"; "bakery"; "fast_food_restaurant";
     "bar";
     "shopping_mall"; "store"; "market"; "convenience_store"; "supermarket";
     "museum"; "art_gallery"; "library"; "movie_theater";
     "gym"; "fitness_center"; "sports_complex"; "swimming_pool";
     "golf_course";
     "bus_station"; "train_station"; "subway_station"; "airport"; "parking";
     "hospital"; "pharmacy"; "bank"; "gas_station"; "rest_stop";
     "hotel"; "lodging"].

(** A dict literal: its items in insertion order (the keys are distinct). *)
Definition CUSTOM_CATEGORY_MAPPING : list (string * list string) :=
  [("park", ["park"; "national_park"]);
   ("nature", ["hiking_area"; "park"]);
   ("waterfront", ["marina"; "tourist_attraction"]);
   ("restaurant", ["restaurant"]);
   ("cafe", ["cafe"; "coffee_shop"]);
   ("food", ["restaurant"; "cafe"; "bakery"; "fast_food_restaurant"; "bar"]);
   ("shopping", ["shopping_mall"; "store"; "market"; "supermarket"]);
   ("culture", ["museum"; "art_gallery"; "library"]);
   ("attraction", ["tourist_attraction"; "zoo"; "aquarium"]);
   ("sports", ["gym"; "fitness_center"; "sports_complex"]);
   ("transport",
    ["bus_station"; "train_station"; "subway_station"; "airport"]);
   ("health", ["hospital"; "pharmacy"]);
   ("accommodation", ["hotel"; "lodging"])].

(* d.get(key, []) on a dict given by its items *)
Definition dict_get (items : list (string * list string)) (key : string)
  : list string :=
  match find (λ kv, bool_decide (kv.1 = key)) items with
  | Some kv => kv.2
  | None => []
  end.

(* if google_type not in G: G[google_type] = []
   G[google_type].append(category) *)
Definition add_category (category : string)
  (G : gmap string (list string)) (google_type : string)
  : gmap string (list string) :=
  <[google_type := default [] (G !! google_type) ++ [category]]> G.

(** The module-level loop that fills [GOOGLE_TYPE_TO_CATEGORIES], over the
    items of any mapping. *)
Definition reverse_mapping (items : list (string * list string))
  : gmap string (list string) :=
  foldl (λ G '(category, google_types),
           foldl (add_category category) G google_types) ∅ items.

Definition GOOGLE_TYPE_TO_CATEGORIES : gmap string (list string) :=
  reverse_mapping CUSTOM_CATEGORY_MAPPING.

Definition get_google_types_for_category (category : string) : list string :=
  dict_get CUSTOM_CATEGORY_MAPPING category.

Definition get_categories_for_google_type (google_type : string)
  : list string :=
  default [] (GOOGLE_TYPE_TO_CATEGORIES !! google_type).

Definition is_valid_google_type (place_type : string) : bool :=
  bool_decide (place_type ∈ COMMON_GOOGLE_TYPES).

Definition category_priority : list string :=
  ["accommodation"; "transport"; "health"; "sports"; "shopping"; "culture";
   "attraction"; "cafe"; "restaurant"; "park"].

(* the first loop of get_primary_category_for_types *)
Definition found_categories (place_types : list string) : gset string :=
  foldl (λ found place_type,
           if is_valid_google_type place_type
           then found ∪ list_to_set (get_categories_for_google_type place_type)
           else found) ∅ place_types.

(** [list(found_categories)[0]] takes the first element in the set's
    iteration order, which Python does not fix; here it is the order of
    [elements], and nothing below depends on which element comes first. *)
Definition get_primary_category_for_types (place_types : list string)
  : string :=
  let found := found_categories place_types in
  match find (λ category, bool_decide (category ∈ found))
             (reverse category_priority) with
  | Some category => category
  | None =>
      match elements found with
      | category :: _ => category
      | [] => "other"
      end
  end.

(* one turn of the loop of filter_supported_types on (seen, result) *)
Definition filter_step (st : gset string * list string)
  (google_type : string) : gset string * list string :=
  if is_valid_google_type google_type
     && negb (bool_decide (google_type ∈ st.1))
  then ({[google_type]} ∪ st.1, st.2 ++ [google_type])
  else st.

Definition filter_supported_types (google_types : list string)
  : list string :=
  (foldl filter_step (∅, []) google_types).2.

(** Each element of a list once, at the place where it first occurs: the
    head stays, and its later copies are struck from what the rest
    gives. *)
Definition first_occurrences (l : list string) : list string :=
  foldr (λ x acc, x :: filter (λ y, y ≠ x) acc) [] l.

(** [GoogleMapService._map_categories_to_google_types]: the valid types of
    the categories, each once, in the iteration order of a set (here the
    one of [elements]). *)
Definition _map_categories_to_google_types (categories : list string)
  : list string :=
  let google_types :=
    foldl (λ acc category, acc ++ get_google_types_for_category category)
      [] categories in
  filter (λ google_type, is_valid_google_type google_type = true)
    (elements (list_to_set google_types : gset string)).

End PlaceTypes.

(** ** services/map/api_counter.py *)

Module ApiCounter.

(** A calendar date, as its ordinal.  The dict is keyed by
    [date.isoformat()], which is one-to-one, so the date itself serves as
    the key. *)
Definition date := nat.

Record APICounter := Counter {
  call_count : gmap date nat;
  current_date : date
}.

Section Counter.
(** [settings.max_api_calls_per_day] *)
Context (max_api_calls_per_day : Z).

(** Each method reads the clock once ([date.today()]); the reading is the
    argument [today]. *)
Definition can_make_call (today : date) (self : APICounter)
  : bool * APICounter :=
  let self' :=
    if bool_decide (today ≠ current_date self)
    then {| call_count := ∅; current_date := today |}
    else self in
  let current_calls := default 0 (call_count self' !! today) in
  ((Z.of_nat current_calls <? max_api_calls_per_day)%Z, self').

Definition record_call (today : date) (self : APICounter) : APICounter :=
  let counts :=
    match call_count self !! today with
    | Some _ => call_count self
    | None => <[today := 0]> (call_count self)
    end in
  {| call_count := alter (λ n, n + 1) today counts;
     current_date := current_date self |}.

Definition get_remaining_calls (today : date) (self : APICounter) : Z :=
  let current_calls := default 0 (call_count self !! today) in
  (0 `max` (max_api_calls_per_day - Z.of_nat current_calls))%Z.

End Counter.

(* APICounter() on the day it is created *)
Definition new_counter (today : date) : APICounter :=
  {| call_count := ∅; current_date := today |}.

(** *** google_map_service.py: the counter in the provider's methods

    What the methods of [GoogleMapService] do to the counter.  An HTTP
    request is answered ([raise_for_status] passes) or fails; the search
    for the nearest navigable point is answered with a place, answered
    with none, or fails.  Every reading of the clock made during one
    method call falls on the day [today]. *)
Inductive reply := Answered | Failed.
Inductive nearest_reply := NearestPlace | NearestNone | NearestFailed.

(** [find_nearby_places]: the check comes first and a refusal raises; the
    call is recorded once the provider has answered; a failed request
    raises with nothing recorded.  The boolean tells whether the method
    returned. *)
Definition find_nearby_places (max_api_calls_per_day : Z) (today : date)
  (http : reply) (self : APICounter) : bool * APICounter :=
  let '(ok, self1) := can_make_call max_api_calls_per_day today self in
  if ok then
    match http with
    | Answered => (true, record_call today self1)
    | Failed => (false, self1)
    end
  else (false, self1).

(** [_find_nearest_navigable_point]: [None] is the refusal, which raises;
    [Some b] is a return, [b] telling whether a place id came back.  A
    failed request is caught and returns no place id, with nothing
    recorded. *)
Definition _find_nearest_navigable_point (max_api_calls_per_day : Z)
  (today : date) (http : nearest_reply) (self : APICounter)
  : option bool * APICounter :=
  let '(ok, self1) := can_make_call max_api_calls_per_day today self in
  if ok then
    match http with
    | NearestPlace => (Some true, record_call today self1)
    | NearestNone => (Some false, record_call today self1)
    | NearestFailed => (Some false, self1)
    end
  else (None, self1).

(** [get_directions]: its own check, then the search for the nearest
    navigable point (which checks and records for itself), then the routes
    request, recorded once answered.  Without a place id the method
    raises. *)
Definition get_directions (max_api_calls_per_day : Z) (today : date)
  (nearest : nearest_reply) (http : reply) (self : APICounter)
  : bool * APICounter :=
  let '(ok, self1) := can_make_call max_api_calls_per_day today self in
  if ok then
    match _find_nearest_navigable_point max_api_calls_per_day today nearest
            self1 with
    | (Some true, self2) =>
        match http with
        | Answered => (true, record_call today self2)
        | Failed => (false, self2)
        end
    | (_, self2) => (false, self2)
    end
  else (false, self1).

(* the number of calls on record for a day *)
Definition recorded (self : APICounter) (day : date) : nat :=
  default 0 (call_count self !! day).

End ApiCounter.

(** ** ranking_service.py: _sanitize_feature_dict *)

Module Sanitize.

(** The values a feature dict may hold, by what the function asks of
    them: [None]; the instances of [int] and [float] ([bool] is a subclass
    of [int]); and any other object, of which only the outcome of
    [float(v)] matters ([None] when it raises). *)
Inductive pyval : Type :=
  | VNone
  | VBool (b : bool)
  | VInt (z : Z)
  | VFloat (f : float)
  | VObj (as_float : option float).

(* float(z) for an int: the nearest binary64, ties to even; OverflowError
   ([None]) when that is beyond the largest finite value *)
Definition float_of_int (z : Z) : option float :=
  match binary_normalize prec emax z 0 false with
  | S754_infinity _ => None
  | sf => Some (SF2Prim sf)
  end.

(* if not (math.isnan(fv) or math.isinf(fv)): clean[k] = fv *)
Definition keep (clean : list (string * float)) (k : string) (fv : float)
  : list (string * float) :=
  if is_nan fv || is_infinity fv then clean else clean ++ [(k, fv)].

(** One turn of the loop.  The conversion of an [int] is outside the
    [try], so its OverflowError leaves the function. *)
Definition sanitize_step (clean : list (string * float))
  (kv : string * pyval) : option (list (string * float)) :=
  let '(k, v) := kv in
  match v with
  | VNone => Some clean
  | VBool b => Some (keep clean k (if b then 1 else 0)%float)
  | VInt z => fv ← float_of_int z; Some (keep clean k fv)
  | VFloat f => Some (keep clean k f)
  | VObj (Some fv) => Some (keep clean k fv)
  | VObj None => Some clean
  end.

(** A dict is the list of its items, in insertion order, with distinct
    keys; [None] is an exception. *)
Definition _sanitize_feature_dict (d : list (string * pyval))
  : option (list (string * float)) :=
  foldl (λ acc kv, clean ← acc; sanitize_step clean kv) (Some []) d.

(** [float(v)] returns [fv]. *)
Definition yields (v : pyval) (fv : float) : Prop :=
  match v with
  | VNone => False
  | VBool b => fv = (if b then 1 else 0)%float
  | VInt z => float_of_int z = Some fv
  | VFloat f => fv = f
  | VObj o => o = Some fv
  end.

(* a dict with one entry of each kind *)
Definition sample_features : list (string * pyval) :=
  [("rating", VFloat 4.5); ("missing", VNone); ("count", VInt 3);
   ("ratio", VFloat nan); ("open", VBool true);
   ("unbounded", VFloat infinity); ("label", VObj None);
   ("text", VObj (Some 2.5%float))].

End Sanitize.

(** ** Properties of the crossing optimizer *)

Section TwoOptFacts.
Import TwoOpt.

Lemma reverse_slice_perm {A} (l : list A) lo hi :
  lo ≤ hi → reverse_slice l lo hi ≡ₚ l.
Proof.
  intros Hle. unfold reverse_slice.
  rewrite reverse_Permutation.
  replace (drop hi l) with (drop (hi - lo) (drop lo l))
    by (rewrite drop_drop; f_equal; lia).
  by rewrite (take_drop (hi - lo)), take_drop.
Qed.

Lemma scan_inner_None l i :
  scan_inner l i = None →
  ∀ j, i + 2 ≤ j → j + 1 < length l → edges_intersect l i j = false.
Proof.
  unfold scan_inner. intros Hnone j Hij Hj.
  eapply find_none in Hnone; [exact Hnone|].
  apply in_seq. lia.
Qed.

Lemma scan_outer_None l is_ :
  scan_outer l is_ = None → ∀ i, i ∈ is_ → scan_inner l i = None.
Proof.
  induction is_ as [|k rest IH]; simpl; intros Hnone i Hin.
  - by apply elem_of_nil in Hin.
  - destruct (scan_inner l k) eqn:Hk; [done|].
    apply elem_of_cons in Hin as [->|Hin]; auto.
Qed.

Lemma first_crossing_None l :
  first_crossing l = None → crossing_free l.
Proof.
  intros Hnone i j Hij (w1 & w2 & w3 & w4 & H1 & H2 & H3 & H4 & Hx).
  assert (j + 1 < length l) as Hj by (by eapply lookup_lt_Some).
  assert (scan_inner l i = None) as Hin.
  { eapply scan_outer_None; [exact Hnone|].
    apply list_elem_of_In, in_seq. lia. }
  pose proof (scan_inner_None _ _ Hin j Hij Hj) as Hf.
  unfold edges_intersect in Hf. rewrite H1, H2, H3, H4 in Hf. congruence.
Qed.

Lemma scan_inner_Some l i j :
  scan_inner l i = Some j → i + 2 ≤ j.
Proof.
  unfold scan_inner. intros Hs. apply find_some in Hs as [Hin _].
  apply in_seq in Hin. lia.
Qed.

Lemma scan_outer_Some l is_ i j :
  scan_outer l is_ = Some (i, j) → i + 2 ≤ j.
Proof.
  induction is_ as [|k rest IH]; simpl; [done|].
  destruct (scan_inner l k) eqn:Hk; [|done].
  intros [= <- <-]. by eapply scan_inner_Some.
Qed.

Lemma two_opt_loop_spec fuel l r :
  two_opt_loop fuel l = Some r → r ≡ₚ l ∧ first_crossing r = None.
Proof.
  revert l. induction fuel as [|fuel IH]; simpl; intros l; [done|].
  destruct (first_crossing l) as [[i j]|] eqn:Hc.
  - intros Hr. apply IH in Hr as [Hp Hn]. split; [|done].
    rewrite Hp. apply reverse_slice_perm.
    apply scan_outer_Some in Hc. lia.
  - by intros [= <-].
Qed.

Lemma optimize_short fuel l :
  length l < 4 → optimize_waypoint_order_by_two_opt fuel l = Some l.
Proof.
  intros Hl. unfold optimize_waypoint_order_by_two_opt.
  by destruct (Nat.ltb_spec (length l) 4); [|lia].
Qed.

Lemma crossing_free_short l : length l < 4 → crossing_free l.
Proof.
  intros Hl i j Hij (w1 & w2 & w3 & w4 & _ & _ & _ & H4 & _).
  apply lookup_lt_Some in H4. lia.
Qed.

(** What a returned sequence is like: a reordering of the input (the same
    waypoints, each as often as in the input) in which no two non-adjacent
    edges [(i,i+1)], [(j,j+1)] with [j ≥ i+2] satisfy
    [_segments_intersect].  Whether a sequence is returned is another
    matter, settled below. *)
Lemma two_opt_result_crossing_free fuel (w r : list place) :
  optimize_waypoint_order_by_two_opt fuel w = Some r →
  r ≡ₚ w ∧ crossing_free r.
Proof.
  unfold optimize_waypoint_order_by_two_opt.
  destruct (Nat.ltb_spec (length w) 4) as [Hl|Hl].
  - intros [= <-]. split; [done|]. by apply crossing_free_short.
  - intros Hr. apply two_opt_loop_spec in Hr as [Hp Hn].
    split; [done|]. by apply first_crossing_None.
Qed.

Lemma two_opt_bowtie :
  optimize_waypoint_order_by_two_opt 2 bowtie
  = Some [wp "a" 0 0; wp "c" 1 0; wp "b" 1 1; wp "d" 0 1].
Proof. vm_compute. reflexivity. Qed.

Lemma two_opt_result_crossing_free_witness :
  [wp "a" 0 0; wp "c" 1 0; wp "b" 1 1; wp "d" 0 1] ≡ₚ bowtie
  ∧ crossing_free [wp "a" 0 0; wp "c" 1 0; wp "b" 1 1; wp "d" 0 1].
Proof.
  apply (two_opt_result_crossing_free 2 bowtie). vm_compute. reflexivity.
Defined.

Lemma two_opt_loop_fixpoint fuel r :
  first_crossing r = None → two_opt_loop (S fuel) r = Some r.
Proof. intros Hn. simpl. by rewrite Hn. Qed.

(** C9.  Once the optimizer has converged on [w] with result [r], running
    it again on [r] returns [r]: the first pass already finds no
    intersecting pair (one unit of fuel suffices, and any more changes
    nothing). *)
Theorem two_opt_idempotent fuel fuel' (w r : list place) :
  optimize_waypoint_order_by_two_opt fuel w = Some r →
  optimize_waypoint_order_by_two_opt (S fuel') r = Some r.
Proof.
  unfold optimize_waypoint_order_by_two_opt at 1.
  destruct (Nat.ltb_spec (length w) 4) as [Hl|Hl].
  - intros [= <-]. by apply optimize_short.
  - intros Hr. apply two_opt_loop_spec in Hr as [_ Hn].
    unfold optimize_waypoint_order_by_two_opt.
    destruct (length r <? 4)%nat; [done|].
    by apply two_opt_loop_fixpoint.
Qed.

Lemma two_opt_idempotent_witness :
  optimize_waypoint_order_by_two_opt 1
    [wp "a" 0 0; wp "c" 1 0; wp "b" 1 1; wp "d" 0 1]
  = Some [wp "a" 0 0; wp "c" 1 0; wp "b" 1 1; wp "d" 0 1].
Proof.
  apply (two_opt_idempotent 2 0 bowtie). vm_compute. reflexivity.
Defined.

(** On [collinear4] a pass finds edges (0,1) and (2,3) overlapping, and the
    reversal leads to an ordering in which they overlap again; reversing
    that one gives [collinear4] back. *)
Definition collinear4' : list place :=
  [wp "a" 0 0; wp "c" 3 0; wp "b" 2 0; wp "d" 1 0].

Lemma collinear4_step :
  first_crossing collinear4 = Some (0, 2)
  ∧ reverse_slice collinear4 1 3 = collinear4'.
Proof. split; vm_compute; reflexivity. Qed.

Lemma collinear4'_step :
  first_crossing collinear4' = Some (0, 2)
  ∧ reverse_slice collinear4' 1 3 = collinear4.
Proof. split; vm_compute; reflexivity. Qed.

Lemma two_opt_loop_cycles fuel :
  two_opt_loop fuel collinear4 = None ∧ two_opt_loop fuel collinear4' = None.
Proof.
  destruct collinear4_step as [Ha Hb], collinear4'_step as [Hc Hd].
  induction fuel as [|fuel [IH1 IH2]]; [done|].
  split; cbn [two_opt_loop].
  - rewrite Ha. change (0 + 1) with 1. change (2 + 1) with 3.
    by rewrite Hb.
  - rewrite Hc. change (0 + 1) with 1. change (2 + 1) with 3.
    by rewrite Hd.
Qed.

Lemma collinear4_crossings :
  crossing collinear4 0 2 ∧ crossing collinear4' 0 2.
Proof.
  split.
  - exists (wp "a" 0 0), (wp "b" 2 0), (wp "c" 3 0), (wp "d" 1 0).
    split_and!; vm_compute; reflexivity.
  - exists (wp "a" 0 0), (wp "c" 3 0), (wp "b" 2 0), (wp "d" 1 0).
    split_and!; vm_compute; reflexivity.
Qed.

(** C1.  The optimizer does not hand back a crossing-free ordering for
    every input.  On the four collinear waypoints (0,0), (2,0), (3,0),
    (1,0) the loop only ever holds the input or (0,0), (3,0), (2,0), (1,0);
    in both, edges (0,1) and (2,3) satisfy [_segments_intersect]; and
    whatever the number of passes, no sequence is returned, so none that
    is a crossing-free reordering of the input. *)
Theorem two_opt_no_result_on_collinear :
  crossing collinear4 0 2
  ∧ crossing collinear4' 0 2
  ∧ reverse_slice collinear4 1 3 = collinear4'
  ∧ reverse_slice collinear4' 1 3 = collinear4
  ∧ ¬ ∃ fuel r,
        optimize_waypoint_order_by_two_opt fuel collinear4 = Some r
        ∧ r ≡ₚ collinear4 ∧ crossing_free r.
Proof.
  destruct collinear4_crossings as [Hx Hx'].
  split_and!; [exact Hx|exact Hx'|apply collinear4_step
              |apply collinear4'_step|].
  intros (fuel & r & Hr & _).
  unfold optimize_waypoint_order_by_two_opt in Hr.
  change (length collinear4 <? 4)%nat with false in Hr.
  destruct (two_opt_loop_cycles fuel) as [Hnone _]. congruence.
Qed.

(** C2.  The loop does not always end: on four distinct collinear
    waypoints, (0,0), (2,0), (3,0), (1,0), every pass finds an
    intersecting pair, so no amount of fuel yields a result. *)
Theorem two_opt_diverges_on_collinear :
  ∀ fuel, optimize_waypoint_order_by_two_opt fuel collinear4 = None.
Proof.
  intros fuel. unfold optimize_waypoint_order_by_two_opt.
  change (length collinear4 <? 4)%nat with false.
  apply two_opt_loop_cycles.
Qed.

End TwoOptFacts.

(** ** Order on binary64 values *)

Section FloatOrder.
Local Open Scope float_scope.

Ltac cmp_cases :=
  repeat match goal with
  | |- context [(?a ?= ?b)%Z] => destruct (Z.compare_spec a b)
  | |- context [Pos.compare_cont Eq ?a ?b] =>
      change (Pos.compare_cont Eq a b) with (a ?= b)%positive;
      destruct (Pos.compare_spec a b)
  end; simpl; intros; subst; try done; try lia.

Lemma SFleb_trans a b c :
  SFleb a b = true → SFleb b c = true → SFleb a c = true.
Proof.
  unfold SFleb, SFcompare.
  destruct a as [[]|[]| |[] m1 e1], b as [[]|[]| |[] m2 e2],
           c as [[]|[]| |[] m3 e3]; try done; cmp_cases.
Qed.

Lemma SFleb_total a b :
  a ≠ S754_nan → b ≠ S754_nan → SFltb a b = false → SFleb b a = true.
Proof.
  unfold SFleb, SFltb, SFcompare.
  destruct a as [[]|[]| |[] m1 e1], b as [[]|[]| |[] m2 e2];
    try done; cmp_cases.
Qed.

Lemma SFltb_eqb_absurd a b k :
  SFltb a b = true → SFeqb a k = true → SFeqb b k = true → False.
Proof.
  unfold SFeqb, SFltb, SFcompare.
  destruct a as [[]|[]| |[] m1 e1], b as [[]|[]| |[] m2 e2],
           k as [[]|[]| |[] m3 e3]; try done; cmp_cases.
Qed.

Lemma is_nan_SF x : is_nan x = false → Prim2SF x ≠ S754_nan.
Proof.
  unfold is_nan. rewrite FloatAxioms.eqb_spec. intros H Hn.
  by rewrite Hn in H.
Qed.

Lemma float_leb_total x y :
  is_nan x = false → is_nan y = false → (x <? y) = false → (y <=? x) = true.
Proof.
  rewrite ltb_spec, leb_spec. intros Hx%is_nan_SF Hy%is_nan_SF.
  by apply SFleb_total.
Qed.

Lemma float_leb_trans x y z :
  (x <=? y) = true → (y <=? z) = true → (x <=? z) = true.
Proof. rewrite !leb_spec. apply SFleb_trans. Qed.

Lemma float_ltb_leb x y : (x <? y) = true → (x <=? y) = true.
Proof.
  rewrite ltb_spec, leb_spec. unfold SFleb, SFltb.
  by destruct (SFcompare _ _) as [[]|].
Qed.

Lemma float_ltb_eqb_absurd x y k :
  (x <? y) = true → (x =? k) = true → (y =? k) = true → False.
Proof. rewrite ltb_spec, !FloatAxioms.eqb_spec. apply SFltb_eqb_absurd. Qed.

Lemma float_leb_infinity x : (infinity <=? x) = true → x = infinity.
Proof.
  rewrite leb_spec. intros H. apply Prim2SF_inj.
  change (Prim2SF infinity) with (S754_infinity false) in *.
  by destruct (Prim2SF x) as [[]|[]| |[] m e].
Qed.

Lemma float_leb_neg_infinity x :
  (x <=? neg_infinity) = true → x = neg_infinity.
Proof.
  rewrite leb_spec. intros H. apply Prim2SF_inj.
  change (Prim2SF neg_infinity) with (S754_infinity true) in *.
  by destruct (Prim2SF x) as [[]|[]| |[] m e].
Qed.

End FloatOrder.

(** ** Properties of the stable sort *)

Section SortFacts.
Context {A : Type}.
Implicit Types (l : list A) (x y : A).

Lemma insert_perm (before : A → A → bool) x l :
  Py.insert before x l ≡ₚ x :: l.
Proof.
  induction l as [|y l IH]; simpl; [done|].
  destruct (before y x); [|done].
  by rewrite IH, Permutation_swap.
Qed.

Lemma sort_perm (before : A → A → bool) l : Py.sort before l ≡ₚ l.
Proof.
  unfold Py.sort. induction l as [|x l IH]; simpl; [done|].
  by rewrite insert_perm, IH.
Qed.

(** An element only moves past elements that must come before it; a
    predicate that never holds of both leaves the filtered list as it
    was. *)
Lemma insert_filter (before : A → A → bool) (P : A → Prop)
    `{∀ a, Decision (P a)} x l :
  (∀ y, y ∈ l → before y x = true → P x → P y → False) →
  filter P (Py.insert before x l) = filter P (x :: l).
Proof.
  induction l as [|y l IH]; simpl; intros Hxy; [done|].
  destruct (before y x) eqn:Hb; [|done].
  rewrite filter_cons, IH by (intros; eapply Hxy; eauto using list_elem_of_further).
  rewrite !filter_cons.
  destruct (decide (P y)) as [Hy|Hy], (decide (P x)) as [Hx|Hx]; try done.
  exfalso. eapply (Hxy y); eauto using list_elem_of_here.
Qed.

Lemma sort_filter (before : A → A → bool) (P : A → Prop)
    `{∀ a, Decision (P a)} l :
  (∀ x y, before y x = true → P x → P y → False) →
  filter P (Py.sort before l) = filter P l.
Proof.
  intros Hxy. unfold Py.sort. induction l as [|x l IH]; simpl; [done|].
  rewrite insert_filter by eauto. by rewrite !filter_cons, IH.
Qed.

Context (key : A → float).

Lemma insert_reverse_sorted x l :
  is_nan (key x) = false → Forall (λ y, is_nan (key y) = false) l →
  StronglySorted (λ a b, (key b <=? key a)%float = true) l →
  StronglySorted (λ a b, (key b <=? key a)%float = true)
    (Py.insert (λ y x, key x <? key y)%float x l).
Proof.
  intros Hx Hl Hs. induction Hs as [|y l Hs IH Hy]; simpl.
  - repeat constructor.
  - apply Forall_cons in Hl as [Hny Hl].
    destruct (key x <? key y)%float eqn:Hlt.
    + constructor; [by apply IH|].
      eapply Forall_forall. intros z Hz.
      rewrite insert_perm in Hz. apply elem_of_cons in Hz as [->|Hz].
      * by apply float_ltb_leb.
      * by eapply Forall_forall in Hy.
    + assert ((key y <=? key x)%float = true) as Hyx
        by (by apply float_leb_total).
      constructor; [by constructor|].
      constructor; [done|].
      eapply Forall_impl; [exact Hy|]. simpl. intros z Hz.
      by eapply float_leb_trans.
Qed.

Lemma sorted_reverse_sorted l :
  Forall (λ y, is_nan (key y) = false) l →
  StronglySorted (λ a b, (key b <=? key a)%float = true)
    (Py.sorted_reverse key l).
Proof.
  unfold Py.sorted_reverse, Py.sort.
  induction l as [|x l IH]; simpl; intros Hl; [constructor|].
  apply Forall_cons in Hl as [Hx Hl].
  apply insert_reverse_sorted; [done| |by apply IH].
  eapply Forall_forall. intros y Hy.
  change (y ∈ Py.sort (λ y x, key x <? key y)%float l) in Hy.
  rewrite sort_perm in Hy. by eapply Forall_forall in Hl.
Qed.

Lemma sorted_reverse_stable l (k : float) :
  filter (λ a, (key a =? k)%float = true) (Py.sorted_reverse key l)
  = filter (λ a, (key a =? k)%float = true) l.
Proof.
  apply sort_filter. intros x y Hlt Hx Hy.
  by eapply float_ltb_eqb_absurd.
Qed.

End SortFacts.

(** ** Properties of the ranking stage *)

Section RankingFacts.
Import Ranking.
Implicit Types (m : scorer_model) (routes out : list loc) (σ : state).
Implicit Types (h : gmap loc route).

#[local] Instance same_but_score_refl : Reflexive same_but_score.
Proof. by intros r. Qed.

#[local] Instance same_but_score_trans : Transitive same_but_score.
Proof.
  intros r1 r2 r3 (?&?&?&?&?) (?&?&?&?&?).
  repeat split; congruence.
Qed.

Lemma set_score_frame s r : same_but_score r (set_score s r).
Proof. by destruct r. Qed.

Lemma write_scores_frame h routes scores (l : loc) :
  option_Forall2 same_but_score (h !! l) (write_scores h routes scores !! l).
Proof.
  unfold write_scores. generalize (zip routes scores) as ps. intros ps.
  revert h. induction ps as [|[r s] ps IH]; intros h; simpl.
  - by destruct (h !! l); constructor.
  - specialize (IH (alter (set_score s) r h)).
    destruct (decide (r = l)) as [->|Hne].
    + rewrite lookup_alter_eq in IH.
      destruct (h !! l) as [d|]; simpl in IH;
        inversion IH; subst; constructor.
      etrans; [apply (set_score_frame s)|done].
    + by rewrite lookup_alter_ne in IH.
Qed.

(** After the write-back a listed candidate that the scorer covered carries
    one of the scorer's scores. *)
Lemma write_scores_key h routes scores (l : loc) :
  length routes ≤ length scores → l ∈ routes → is_Some (h !! l) →
  sort_key (write_scores h routes scores) l ∈ scores.
Proof.
  unfold write_scores. intros Hlen Hin Hl.
  rewrite <-(fst_zip routes scores) in Hin by done.
  assert (Forall (λ p, p.2 ∈ scores) (zip routes scores)) as Hsc.
  { apply Forall_forall. intros [r s] Hp. by eapply elem_of_zip_r. }
  revert Hin Hsc. generalize (zip routes scores) as ps. intros ps.
  induction ps as [|[r s] ps IH] using rev_ind; intros Hin Hsc.
  - by apply elem_of_nil in Hin.
  - rewrite foldl_snoc. rewrite Forall_app, Forall_singleton in Hsc.
    destruct Hsc as [Hps Hs]. simpl in Hs.
    unfold sort_key. destruct (decide (r = l)) as [->|Hne].
    + rewrite lookup_alter_eq.
      assert (is_Some (foldl (λ h' '(r, s), alter (set_score s) r h') h ps !! l))
        as [d Hd].
      { pose proof (write_scores_frame h ps.*1 ps.*2 l) as Hf.
        unfold write_scores in Hf. rewrite zip_fst_snd in Hf.
        destruct Hl as [d0 Hd0]. rewrite Hd0 in Hf. inversion Hf. eauto. }
      rewrite Hd. exact Hs.
    + rewrite lookup_alter_ne by done. apply IH; [|done].
      rewrite fmap_app in Hin. apply elem_of_app in Hin as [Hin|Hin]; [done|].
      simpl in Hin. apply list_elem_of_singleton in Hin. congruence.
Qed.

Lemma rank_routes_out m routes σ :
  (rank_routes m routes σ).1
  = Py.sorted_reverse (sort_key (heap (rank_routes m routes σ).2)) routes.
Proof. by destruct routes. Qed.

Lemma rank_routes_descending m routes σ :
  Forall (λ r, is_nan (sort_key (heap (rank_routes m routes σ).2) r) = false)
    routes →
  descending (heap (rank_routes m routes σ).2) (rank_routes m routes σ).1.
Proof.
  intros Hn. rewrite rank_routes_out. unfold descending.
  by apply sorted_reverse_sorted.
Qed.

(** When every listed address holds a dict and the model returns a score
    for each, none of them NaN, no sort key is NaN. *)
Lemma rank_routes_keys_not_nan m routes σ :
  Forall (λ r, is_Some (heap σ !! r)) routes →
  length routes ≤ length (model_scores m (heap σ) routes) →
  Forall (λ s, is_nan s = false) (model_scores m (heap σ) routes) →
  Forall (λ r, is_nan (sort_key (heap (rank_routes m routes σ).2) r) = false)
    routes.
Proof.
  intros Hheap Hlen Hnan. destruct routes as [|r0 routes]; [constructor|].
  simpl. set (rs := r0 :: routes) in *.
  apply Forall_forall. intros r Hr.
  eapply Forall_forall in Hnan; [exact Hnan|].
  apply write_scores_key; [done..|]. by eapply Forall_forall in Hheap.
Qed.

Lemma rank_routes_calls m r routes σ :
  scorer_calls (rank_routes m (r :: routes) σ).2 = S (scorer_calls σ).
Proof. reflexivity. Qed.

(** C3 (as the code has it).  The list [rank_routes] returns always holds
    exactly the input candidates (the same objects, each as often as in
    the input).  Provided no candidate's score is NaN when the sort runs,
    their scores are in descending order and candidates of equal score
    keep the order they had in the input. *)
Theorem rank_routes_sorted_stable m routes σ :
  (rank_routes m routes σ).1 ≡ₚ routes
  ∧ (Forall
       (λ r, is_nan (sort_key (heap (rank_routes m routes σ).2) r) = false)
       routes →
     descending (heap (rank_routes m routes σ).2) (rank_routes m routes σ).1
     ∧ ties_keep_order (heap (rank_routes m routes σ).2) routes
         (rank_routes m routes σ).1).
Proof.
  split; [|intros Hn; split].
  - rewrite rank_routes_out. apply sort_perm.
  - by apply rank_routes_descending.
  - intros k. rewrite rank_routes_out. apply sorted_reverse_stable.
Qed.

Lemma rank_routes_sorted_stable_witness :
  (rank_routes (fixed_scores [0.9; 0.4; 0.7; 0.4]%float) [0; 1; 2; 3]
     (State heap4 0)).1 = [0; 2; 1; 3]
  ∧ ((rank_routes (fixed_scores [0.9; 0.4; 0.7; 0.4]%float) [0; 1; 2; 3]
        (State heap4 0)).1 ≡ₚ [0; 1; 2; 3]
     ∧ descending
         (heap (rank_routes (fixed_scores [0.9; 0.4; 0.7; 0.4]%float)
                  [0; 1; 2; 3] (State heap4 0)).2)
         (rank_routes (fixed_scores [0.9; 0.4; 0.7; 0.4]%float) [0; 1; 2; 3]
            (State heap4 0)).1
     ∧ ties_keep_order
         (heap (rank_routes (fixed_scores [0.9; 0.4; 0.7; 0.4]%float)
                  [0; 1; 2; 3] (State heap4 0)).2)
         [0; 1; 2; 3]
         (rank_routes (fixed_scores [0.9; 0.4; 0.7; 0.4]%float) [0; 1; 2; 3]
            (State heap4 0)).1).
Proof.
  split; [vm_compute; reflexivity|].
  destruct (rank_routes_sorted_stable
              (fixed_scores [0.9; 0.4; 0.7; 0.4]%float) [0; 1; 2; 3]
              (State heap4 0)) as [Hperm Hsorted].
  split; [exact Hperm|]. apply Hsorted.
  repeat (constructor; [vm_compute; reflexivity|]). constructor.
Defined.

(** C3 (as stated) fails: with scores 3.0, NaN, 5.0, 4.0 the candidates
    come back in their input order, the one scored 3.0 ahead of the one
    scored 5.0.  No comparison with NaN holds, so the sort never moves a
    candidate across the one scored NaN. *)
Lemma rank_routes_nan_not_descending :
  (rank_routes (fixed_scores [3; nan; 5; 4]%float) [0; 1; 2; 3]
     (State heap4 0)).1 = [0; 1; 2; 3]
  ∧ sort_key
      (heap (rank_routes (fixed_scores [3; nan; 5; 4]%float) [0; 1; 2; 3]
               (State heap4 0)).2) 0 = 3%float
  ∧ sort_key
      (heap (rank_routes (fixed_scores [3; nan; 5; 4]%float) [0; 1; 2; 3]
               (State heap4 0)).2) 2 = 5%float
  ∧ ¬ descending
        (heap (rank_routes (fixed_scores [3; nan; 5; 4]%float) [0; 1; 2; 3]
                 (State heap4 0)).2)
        (rank_routes (fixed_scores [3; nan; 5; 4]%float) [0; 1; 2; 3]
           (State heap4 0)).1.
Proof.
  split_and!; [vm_compute; reflexivity..|].
  intros Hd.
  assert ((rank_routes (fixed_scores [3; nan; 5; 4]%float) [0; 1; 2; 3]
             (State heap4 0)).1 = [0; 1; 2; 3]) as Hout
    by (vm_compute; reflexivity).
  rewrite Hout in Hd. unfold descending in Hd.
  apply StronglySorted_inv in Hd as [_ Hd].
  apply Forall_inv_tail, Forall_inv in Hd.
  vm_compute in Hd. discriminate.
Qed.

(** C5 (as the code has it).  [rank_routes] has no special case for
    non-finite scores.  Provided no score is NaN, a candidate whose score is
    +infinity is ranked first (only candidates scored +infinity stand
    before it), and one whose score is -infinity is ranked last (only
    candidates scored -infinity stand after it). *)
Theorem rank_routes_infinite_scores m routes σ pre r post :
  Forall (λ r, is_nan (sort_key (heap (rank_routes m routes σ).2) r) = false)
    routes →
  (rank_routes m routes σ).1 = pre ++ r :: post →
  (sort_key (heap (rank_routes m routes σ).2) r = infinity →
   Forall (λ r', sort_key (heap (rank_routes m routes σ).2) r' = infinity)
     pre)
  ∧ (sort_key (heap (rank_routes m routes σ).2) r = neg_infinity →
     Forall
       (λ r', sort_key (heap (rank_routes m routes σ).2) r' = neg_infinity)
       post).
Proof.
  intros Hn Hout. apply rank_routes_descending in Hn.
  unfold descending in Hn. rewrite Hout in Hn.
  split; intros Hr; apply Forall_forall; intros r' Hr'.
  - apply float_leb_infinity. rewrite <-Hr.
    eapply (StronglySorted_app_1_elem_of _ _ _ r' r Hn); [done|].
    apply list_elem_of_here.
  - apply float_leb_neg_infinity. rewrite <-Hr.
    apply StronglySorted_app_1_r in Hn.
    apply StronglySorted_inv in Hn as [_ Hn].
    by eapply Forall_forall in Hn.
Qed.

Lemma rank_routes_infinite_scores_witness :
  (sort_key
     (heap (rank_routes (fixed_scores [infinity; 1; infinity; 2]%float)
              [0; 1; 2; 3] (State heap4 0)).2) 2 = infinity →
   Forall
     (λ r', sort_key
        (heap (rank_routes (fixed_scores [infinity; 1; infinity; 2]%float)
                 [0; 1; 2; 3] (State heap4 0)).2) r' = infinity) [0])
  ∧ (sort_key
       (heap (rank_routes (fixed_scores [infinity; 1; infinity; 2]%float)
                [0; 1; 2; 3] (State heap4 0)).2) 2 = neg_infinity →
     Forall
       (λ r', sort_key
          (heap (rank_routes (fixed_scores [infinity; 1; infinity; 2]%float)
                   [0; 1; 2; 3] (State heap4 0)).2) r' = neg_infinity)
       [3; 1]).
Proof.
  apply (rank_routes_infinite_scores
           (fixed_scores [infinity; 1; infinity; 2]%float) [0; 1; 2; 3]
           (State heap4 0) [0] 2 [3; 1]).
  - repeat (constructor; [vm_compute; reflexivity|]). constructor.
  - vm_compute. reflexivity.
Defined.

(** C5 (as stated) fails: with scores 1.0 and +infinity the candidate
    scored +infinity is returned first, ahead of the finite one. *)
Lemma rank_routes_infinity_not_last :
  (rank_routes (fixed_scores [1; infinity]%float) [0; 1] (State heap4 0)).1
  = [1; 0]
  ∧ ¬ nonfinite_ranked_last
        (heap (rank_routes (fixed_scores [1; infinity]%float) [0; 1]
                 (State heap4 0)).2)
        (rank_routes (fixed_scores [1; infinity]%float) [0; 1]
           (State heap4 0)).1.
Proof.
  split; [vm_compute; reflexivity|].
  intros Hlast. specialize (Hlast [] 1 [0]).
  assert (Forall
    (λ r', is_finite (sort_key
       (heap (rank_routes (fixed_scores [1; infinity]%float) [0; 1]
                (State heap4 0)).2) r') = false) [0]) as Hf.
  { apply Hlast; vm_compute; reflexivity. }
  apply Forall_inv in Hf. vm_compute in Hf. discriminate.
Qed.

(** C8.  On the empty list [rank_routes] returns the empty list and leaves
    the state as it was: nothing is written and the count of calls made to
    the scoring model is the one before the call. *)
Theorem rank_routes_empty m σ :
  rank_routes m [] σ = ([], σ)
  ∧ scorer_calls (rank_routes m [] σ).2 = scorer_calls σ.
Proof. split; reflexivity. Qed.

(** C10.  At every address, the store after [rank_routes] holds a route
    dict exactly where the store before held one, and the two agree on
    every key other than ["score"]: id, route_info, waypoints, metadata and
    criteria. *)
Theorem rank_routes_frame m routes σ (l : loc) :
  option_Forall2 same_but_score
    (heap σ !! l) (heap (rank_routes m routes σ).2 !! l).
Proof.
  destruct routes as [|r routes]; simpl.
  - by destruct (heap σ !! l); constructor.
  - apply write_scores_frame.
Qed.

End RankingFacts.

(** ** Properties of candidate assembly *)

Section GenerationFacts.
Import Generation.
Context (calculate_bearing : float → float → float → float → float).
Context (draw : nat → nat → nat).
Context (ms : map_service).
Implicit Types (criteria : Request.RouteCriteria) (r : route).

Lemma randint_2_3 d : randint d 2 3 = 2 ∨ randint d 2 3 = 3.
Proof.
  unfold randint. change (3 - 2 + 1) with 2.
  pose proof (Nat.mod_upper_bound d 2). lia.
Qed.

Lemma sample_length_le {A} draws (population : list A) k :
  length (sample draws population k) ≤ k.
Proof.
  revert draws population.
  induction k as [|k IH]; intros draws population; simpl; [done|].
  destruct (population !! _); simpl; [|lia].
  specialize (IH (λ n, draws (S n))
    (delete (draws 0 `mod` length population) population)). lia.
Qed.

Lemma sample_length {A} draws (population : list A) k :
  k ≤ length population → length (sample draws population k) = k.
Proof.
  revert draws population.
  induction k as [|k IH]; intros draws population Hk; simpl; [done|].
  assert (draws 0 `mod` length population < length population) as Hj
    by (apply Nat.mod_upper_bound; lia).
  apply lookup_lt_is_Some in Hj. destruct Hj as [x Hx].
  rewrite Hx. simpl. f_equal. apply IH.
  rewrite length_delete by eauto. lia.
Qed.

Lemma selected_length candidates i :
  length (selected_waypoints draw candidates i) ≤ 3
  ∧ (candidates ≠ [] → 1 ≤ length (selected_waypoints draw candidates i))
  ∧ (2 ≤ length candidates
     → 2 ≤ length (selected_waypoints draw candidates i)).
Proof.
  unfold selected_waypoints. cbv zeta.
  destruct (Nat.ltb_spec (length candidates) (randint (draw i 0) 2 3))
    as [Hlt|Hge].
  - destruct (randint_2_3 (draw i 0)), candidates; simpl in *;
      split_and!; (done || lia).
  - rewrite sample_length by done.
    destruct (randint_2_3 (draw i 0)); lia.
Qed.

Lemma angle_order_short fuel center (wps : list place) :
  length wps ≤ 3 →
  ∃ ordered,
    _optimize_waypoint_order_by_angle calculate_bearing fuel center wps
    = Some ordered ∧ ordered ≡ₚ wps.
Proof.
  intros Hlen. unfold _optimize_waypoint_order_by_angle.
  destruct (length wps <=? 1)%nat; [by eexists|].
  set (with_angle := map _ wps).
  assert (map fst (Py.sorted snd with_angle) ≡ₚ wps) as Hp.
  { unfold Py.sorted. rewrite sort_perm. unfold with_angle.
    rewrite map_map. simpl. by rewrite map_id. }
  eexists. split; [|exact Hp].
  apply optimize_short. rewrite Hp. lia.
Qed.

(** What an attempt that appends a candidate has appended. *)
Lemma attempt_Some fuel criteria candidates i r :
  attempt calculate_bearing draw ms fuel criteria candidates i
  = Some (Some r) →
  places (waypoints r) ≡ₚ selected_waypoints draw candidates i
  ∧ count (waypoints r) = length (places (waypoints r))
  ∧ score r = None
  ∧ ∃ cats, mapM search_category (places (waypoints r)) = Some cats
      ∧ categories_used (metadata r)
        = elements (list_to_set cats : gset string).
Proof.
  unfold attempt.
  destruct (selected_length candidates i) as [Hlen _].
  destruct (angle_order_short fuel (Request.center criteria) _ Hlen)
    as (ordered & -> & Hp).
  simpl. destruct (get_directions _ _ _ _) as [[rd|]|]; try done.
  destruct (mapM search_category ordered) as [cats|] eqn:Hcats; [|done].
  intros [= <-]. simpl. eauto 10.
Qed.

Lemma attempt_total fuel criteria candidates i :
  is_Some (attempt calculate_bearing draw ms fuel criteria candidates i).
Proof.
  unfold attempt.
  destruct (selected_length candidates i) as [Hlen _].
  destruct (angle_order_short fuel (Request.center criteria) _ Hlen)
    as (ordered & -> & Hp).
  simpl. eauto.
Qed.

Lemma attempts_total fuel criteria candidates idxs :
  ∃ cs,
    attempts calculate_bearing draw ms fuel criteria candidates idxs
    = Some cs
    ∧ ∀ r, r ∈ cs → ∃ i,
        attempt calculate_bearing draw ms fuel criteria candidates i
        = Some (Some r).
Proof.
  induction idxs as [|i idxs (cs & Hcs & IH)]; simpl.
  - eexists. split; [done|]. intros r Hr. by apply elem_of_nil in Hr.
  - destruct (attempt_total fuel criteria candidates i) as [c Hc].
    rewrite Hc, Hcs. simpl. eexists. split; [done|].
    destruct c as [r0|]; [|done].
    intros r [->|Hr]%elem_of_cons; eauto.
Qed.

Lemma generate_candidate_routes_total fuel criteria max_routes :
  ∃ cs,
    generate_candidate_routes calculate_bearing draw ms fuel criteria
      max_routes = Some cs
    ∧ ∀ r, r ∈ cs →
        all_waypoint_candidates ms criteria ≠ []
        ∧ ∃ i,
            attempt calculate_bearing draw ms fuel criteria
              (all_waypoint_candidates ms criteria) i = Some (Some r).
Proof.
  unfold generate_candidate_routes.
  destruct (all_waypoint_candidates ms criteria) as [|p ps] eqn:Hpool.
  - eexists. split; [done|]. intros r Hr. by apply elem_of_nil in Hr.
  - destruct (attempts_total fuel criteria (p :: ps) (seq 0 max_routes))
      as (cs & Hcs & Hall).
    exists cs. split; [done|]. intros r Hr. split; [done|]. by apply Hall.
Qed.

(** C6 (as the code has it).  Candidate generation returns, and every
    candidate it returns has no score (the key is absent from the dict; it
    is for the readers to supply a default) and lists in
    [categories_used], without repetition, exactly the search categories of
    its waypoints. *)
Theorem candidates_unscored_categories fuel criteria max_routes :
  ∃ cs,
    generate_candidate_routes calculate_bearing draw ms fuel criteria
      max_routes = Some cs
    ∧ ∀ r, r ∈ cs →
        score r = None
        ∧ NoDup (categories_used (metadata r))
        ∧ ∀ c, c ∈ categories_used (metadata r)
               ↔ ∃ p, p ∈ places (waypoints r) ∧ search_category p = Some c.
Proof.
  destruct (generate_candidate_routes_total fuel criteria max_routes)
    as (cs & Hcs & Hall).
  exists cs. split; [done|]. intros r Hr.
  destruct (Hall r Hr) as (_ & i & Hi).
  apply attempt_Some in Hi as (_ & _ & Hscore & cats & Hcats & ->).
  split_and!; [done|apply NoDup_elements|].
  intros c. rewrite elem_of_elements, elem_of_list_to_set.
  apply mapM_Some in Hcats. split.
  - intros Hc. apply list_elem_of_lookup in Hc as [n Hn].
    destruct (Forall2_lookup_r _ _ _ _ _ Hcats Hn) as (p & Hp & Hpc).
    exists p. split; [|done]. by eapply list_elem_of_lookup_2.
  - intros (p & Hp & Hpc). apply list_elem_of_lookup in Hp as [n Hn].
    destruct (Forall2_lookup_l _ _ _ _ _ Hcats Hn) as (c' & Hc' & Hpc').
    assert (c' = c) as -> by congruence.
    by eapply list_elem_of_lookup_2.
Qed.

(** C7 (as the code has it).  Candidate generation returns, and every
    candidate it returns has between one and three waypoints, as many as
    its [count] says; it has two or three whenever the pool holds at least
    two places. *)
Theorem candidates_waypoint_count fuel criteria max_routes :
  ∃ cs,
    generate_candidate_routes calculate_bearing draw ms fuel criteria
      max_routes = Some cs
    ∧ ∀ r, r ∈ cs →
        count (waypoints r) = length (places (waypoints r))
        ∧ 1 ≤ count (waypoints r) ≤ 3
        ∧ (2 ≤ length (all_waypoint_candidates ms criteria)
           → two_or_three_waypoints r).
Proof.
  destruct (generate_candidate_routes_total fuel criteria max_routes)
    as (cs & Hcs & Hall).
  exists cs. split; [done|]. intros r Hr.
  destruct (Hall r Hr) as (Hne & i & Hi).
  apply attempt_Some in Hi as (Hp & Hcount & _).
  destruct (selected_length (all_waypoint_candidates ms criteria) i)
    as (H3 & H1 & H2).
  unfold two_or_three_waypoints. rewrite Hcount, Hp.
  split_and!; [done|by apply H1|done|]. intros Hpool.
  specialize (H2 Hpool). lia.
Qed.

End GenerationFacts.

Section GenerationExamples.
Import Generation.

Lemma generate_one_park :
  generate_candidate_routes bearing0 draw0 ms_one_park 0 Request.crit0 1
  = Some [route_1].
Proof. vm_compute. reflexivity. Qed.

(** C6 (as stated) fails: the candidate assembled from a single park has
    no score at all. *)
Lemma candidate_score_not_initialised :
  ∃ cs r,
    generate_candidate_routes bearing0 draw0 ms_one_park 0 Request.crit0 1
    = Some cs
    ∧ r ∈ cs ∧ ¬ score_initialised r.
Proof.
  exists [route_1], route_1. split_and!.
  - apply generate_one_park.
  - apply list_elem_of_here.
  - by intros [s Hs].
Qed.

(** C7 (as stated) fails: with a pool of one place the candidate has one
    waypoint. *)
Lemma candidate_with_one_waypoint :
  ∃ cs r,
    generate_candidate_routes bearing0 draw0 ms_one_park 0 Request.crit0 1
    = Some cs
    ∧ r ∈ cs ∧ ¬ two_or_three_waypoints r.
Proof.
  exists [route_1], route_1. split_and!.
  - apply generate_one_park.
  - apply list_elem_of_here.
  - by intros [Hc|Hc].
Qed.

End GenerationExamples.

(** ** Properties of the orchestration *)

Section RouteServiceFacts.
Import Generation.
Context (calculate_bearing : float → float → float → float → float).
Context (draw : nat → nat → nat).
Context (ms : map_service).
Context (model : Ranking.scorer_model).
Implicit Types (criteria : Request.RouteCriteria).

Lemma sampler_empty_pool criteria :
  sampler_empty ms criteria → all_waypoint_candidates ms criteria = [].
Proof.
  intros Hempty. unfold all_waypoint_candidates, target_categories.
  simpl. rewrite !Hempty; [done|..]; set_solver.
Qed.

Lemma directions_fail_attempt fuel criteria candidates i :
  directions_fail ms →
  attempt calculate_bearing draw ms fuel criteria candidates i = Some None.
Proof.
  intros Hfail. unfold attempt.
  destruct (selected_length draw candidates i) as [Hlen _].
  destruct (angle_order_short calculate_bearing fuel
              (Request.center criteria) _ Hlen) as (ordered & -> & _).
  simpl. by destruct (Hfail i (Request.center criteria)
                        (map place_id ordered)) as [-> | ->].
Qed.

Lemma directions_fail_attempts fuel criteria candidates idxs :
  directions_fail ms →
  attempts calculate_bearing draw ms fuel criteria candidates idxs
  = Some [].
Proof.
  intros Hfail. induction idxs as [|i idxs IH]; simpl; [done|].
  by rewrite directions_fail_attempt, IH.
Qed.

Lemma no_candidates_generated fuel criteria max_routes :
  sampler_empty ms criteria ∨ directions_fail ms →
  generate_candidate_routes calculate_bearing draw ms fuel criteria
    max_routes = Some [].
Proof.
  unfold generate_candidate_routes. intros [Hempty|Hfail].
  - by rewrite sampler_empty_pool.
  - destruct (all_waypoint_candidates ms criteria); [done|].
    by apply directions_fail_attempts.
Qed.

(** C4.  When the sampler yields no place, or every directions request
    fails, [generate_routes] returns (it neither raises nor runs forever)
    the successful response with no routes and [total_count = 0]. *)
Theorem generate_routes_no_candidates fuel criteria :
  sampler_empty ms criteria ∨ directions_fail ms →
  RouteService.generate_routes calculate_bearing draw ms model fuel criteria
  = Some RouteService.empty_response.
Proof.
  intros Hno. unfold RouteService.generate_routes.
  by rewrite no_candidates_generated.
Qed.

End RouteServiceFacts.

(** A run that reaches the ranking: twenty one-park candidates, of which
    the model scores the first three; the five best are returned, the
    unscored ones (sort key 0.0) with the builder's default score. *)
Lemma generate_routes_one_park :
  (λ resp,
     (Response.success <$> resp, Response.total_count <$> resp,
      map Response.id <$> (Response.routes <$> resp),
      map Response.score <$> (Response.routes <$> resp),
      map Response.route_name <$> (Response.routes <$> resp)))
    (RouteService.generate_routes Generation.bearing0 Generation.draw0
       Generation.ms_one_park
       (Ranking.fixed_scores [0.9; 0.4; 0.7]%float) 0 Request.crit0)
  = (Some true, Some 5,
     Some ["route_1"; "route_3"; "route_2"; "route_4"; "route_5"],
     Some [0.9; 0.7; 0.4; 0.8; 0.8]%float,
     Some ["Via Gardens"; "Via Gardens"; "Via Gardens"; "Via Gardens";
           "Via Gardens"]).
Proof. vm_compute. reflexivity. Qed.

Lemma generate_routes_no_candidates_witness :
  RouteService.generate_routes Generation.bearing0 Generation.draw0
    Generation.ms_no_directions (Ranking.fixed_scores []) 0 Request.crit0
  = Some RouteService.empty_response.
Proof.
  apply (generate_routes_no_candidates Generation.bearing0 Generation.draw0
           Generation.ms_no_directions (Ranking.fixed_scores []) 0
           Request.crit0).
  right. intros i center ids. left. reflexivity.
Defined.

(** * Further properties *)

(** ** The crossing optimizer: geometry and the shape of a run *)

Section TwoOptMore.
Import TwoOpt.

(** The intersection test does not depend on which segment is given
    first: the four orientations and the four bounds checks are the same,
    taken in another order. *)
Theorem segments_intersect_swap (p1 p2 p3 p4 : point) :
  _segments_intersect p1 p2 p3 p4 = _segments_intersect p3 p4 p1 p2.
Proof.
  unfold _segments_intersect. cbv zeta.
  generalize (_orientation p1 p2 p3) (_orientation p1 p2 p4)
             (_orientation p3 p4 p1) (_orientation p3 p4 p2)
             (_on_segment p1 p3 p2) (_on_segment p1 p4 p2)
             (_on_segment p3 p1 p4) (_on_segment p3 p2 p4).
  intros o1 o2 o3 o4 b1 b2 b3 b4.
  destruct (o1 =? o2)%nat, (o3 =? o4)%nat, (o1 =? 0)%nat, (o2 =? 0)%nat,
    (o3 =? 0)%nat, (o4 =? 0)%nat, b1, b2, b3, b4; reflexivity.
Qed.

Lemma reverse_slice_length {A} (l : list A) lo hi :
  lo ≤ hi → length (reverse_slice l lo hi) = length l.
Proof. intros Hle. by rewrite (reverse_slice_perm l lo hi Hle). Qed.

(** A reversal leaves every position outside the slice as it was. *)
Lemma reverse_slice_lookup_outside {A} (l : list A) lo hi n :
  lo ≤ hi → hi ≤ length l → n < lo ∨ hi ≤ n →
  reverse_slice l lo hi !! n = l !! n.
Proof.
  intros Hle Hhi Hn. unfold reverse_slice. destruct Hn as [Hn|Hn].
  - rewrite lookup_app_l by (rewrite length_take; lia).
    by rewrite lookup_take_lt.
  - rewrite app_assoc, lookup_app_r;
      rewrite length_app, length_take, length_reverse, length_take,
        length_drop; [|lia].
    rewrite lookup_drop. f_equal. lia.
Qed.

Lemma scan_inner_Some_lt l i j :
  scan_inner l i = Some j → i + 2 ≤ j ∧ j + 1 < length l.
Proof.
  unfold scan_inner. intros Hs. apply find_some in Hs as [Hin _].
  apply in_seq in Hin. lia.
Qed.

Lemma scan_outer_Some_lt l is_ i j :
  scan_outer l is_ = Some (i, j) → i + 2 ≤ j ∧ j + 1 < length l.
Proof.
  induction is_ as [|k rest IH]; simpl; [done|].
  destruct (scan_inner l k) eqn:Hk; [|done].
  intros [= <- <-]. by eapply scan_inner_Some_lt.
Qed.

Lemma two_opt_loop_ends fuel l r :
  two_opt_loop fuel l = Some r →
  length r = length l ∧ r !! 0 = l !! 0
  ∧ r !! (length l - 1) = l !! (length l - 1).
Proof.
  revert l. induction fuel as [|fuel IH]; simpl; intros l; [done|].
  destruct (first_crossing l) as [[i j]|] eqn:Hc; [|by intros [= <-]].
  apply scan_outer_Some_lt in Hc as [Hij Hj].
  intros Hr. apply IH in Hr as (Hlen & H0 & Hlast).
  rewrite reverse_slice_length in Hlen, Hlast by lia.
  rewrite Hlen, H0, Hlast.
  rewrite !reverse_slice_lookup_outside by lia. done.
Qed.

(** The optimizer never moves the first or the last waypoint, and returns
    as many waypoints as it was given: a reversal only touches positions
    strictly inside the path. *)
Theorem two_opt_keeps_ends fuel (w r : list place) :
  optimize_waypoint_order_by_two_opt fuel w = Some r →
  length r = length w ∧ head r = head w ∧ last r = last w.
Proof.
  unfold optimize_waypoint_order_by_two_opt.
  destruct (length w <? 4)%nat; [by intros [= <-]|].
  intros (Hlen & H0 & Hlast)%two_opt_loop_ends.
  rewrite !head_lookup, !last_lookup, Hlen.
  split_and!; [done..|]. by rewrite <-!Nat.sub_1_r.
Qed.

Lemma two_opt_keeps_ends_witness :
  length [wp "a" 0 0; wp "c" 1 0; wp "b" 1 1; wp "d" 0 1] = length bowtie
  ∧ head [wp "a" 0 0; wp "c" 1 0; wp "b" 1 1; wp "d" 0 1] = head bowtie
  ∧ last [wp "a" 0 0; wp "c" 1 0; wp "b" 1 1; wp "d" 0 1] = last bowtie.
Proof.
  apply (two_opt_keeps_ends 2 bowtie). vm_compute. reflexivity.
Defined.

Lemma edges_intersect_crossing l i j :
  edges_intersect l i j = true → crossing l i j.
Proof.
  unfold edges_intersect, crossing.
  destruct (l !! i) as [w1|], (l !! (i + 1)) as [w2|],
    (l !! j) as [w3|], (l !! (j + 1)) as [w4|]; try done.
  intros Hx. eauto 10.
Qed.

Lemma crossing_free_first_crossing l :
  crossing_free l → first_crossing l = None.
Proof.
  intros Hfree. unfold first_crossing.
  generalize (seq 0 (length l - 3)) as is_. intros is_.
  induction is_ as [|i rest IH]; simpl; [done|].
  destruct (scan_inner l i) as [j|] eqn:Hs; [|done].
  exfalso. pose proof (scan_inner_Some_lt _ _ _ Hs) as [Hij _].
  unfold scan_inner in Hs. apply find_some in Hs as [_ Hx].
  by eapply Hfree, edges_intersect_crossing.
Qed.

(** An ordering that has no intersecting pair of non-adjacent edges is
    returned as it is, after a single pass. *)
Theorem two_opt_crossing_free_unchanged fuel (w : list place) :
  crossing_free w →
  optimize_waypoint_order_by_two_opt (S fuel) w = Some w.
Proof.
  intros Hfree. unfold optimize_waypoint_order_by_two_opt.
  destruct (length w <? 4)%nat; [done|].
  by apply two_opt_loop_fixpoint, crossing_free_first_crossing.
Qed.

Definition square : list place :=
  [wp "a" 0 0; wp "c" 1 0; wp "b" 1 1; wp "d" 0 1; wp "e" (-1) 2].

Lemma two_opt_crossing_free_unchanged_witness :
  optimize_waypoint_order_by_two_opt 1 square = Some square.
Proof.
  apply (two_opt_crossing_free_unchanged 0 square).
  apply first_crossing_None. vm_compute. reflexivity.
Defined.

Lemma first_crossing_four (a b c d : place) :
  first_crossing [a; b; c; d]
  = if edges_intersect [a; b; c; d] 0 2 then Some (0, 2) else None.
Proof.
  unfold first_crossing, scan_inner. cbn [length seq Nat.sub scan_outer].
  unfold scan_inner. cbn [length seq Nat.sub Nat.add find].
  by destruct (edges_intersect [a; b; c; d] 0 2).
Qed.

(** On four waypoints the optimizer is decided by two tests.  If the first
    and the last edge do not intersect, the input is returned after one
    pass.  If they do, the two middle waypoints are swapped; if the first
    and last edge of that ordering do not intersect, it is returned after
    two passes; if they do, the swap is undone and the loop runs on
    without end. *)
Theorem two_opt_four_waypoints (a b c d : place) :
  (edges_intersect [a; b; c; d] 0 2 = false →
   ∀ fuel,
     optimize_waypoint_order_by_two_opt (S fuel) [a; b; c; d]
     = Some [a; b; c; d])
  ∧ (edges_intersect [a; b; c; d] 0 2 = true →
     edges_intersect [a; c; b; d] 0 2 = false →
     ∀ fuel,
       optimize_waypoint_order_by_two_opt (S (S fuel)) [a; b; c; d]
       = Some [a; c; b; d])
  ∧ (edges_intersect [a; b; c; d] 0 2 = true →
     edges_intersect [a; c; b; d] 0 2 = true →
     ∀ fuel,
       optimize_waypoint_order_by_two_opt fuel [a; b; c; d] = None).
Proof.
  unfold optimize_waypoint_order_by_two_opt.
  change (length [a; b; c; d] <? 4)%nat with false. cbv iota.
  split_and!.
  - intros H fuel. cbn [two_opt_loop].
    by rewrite first_crossing_four, H.
  - intros H H' fuel. cbn [two_opt_loop].
    rewrite first_crossing_four, H.
    change (reverse_slice [a; b; c; d] (0 + 1) (2 + 1)) with [a; c; b; d].
    by rewrite first_crossing_four, H'.
  - intros H H' fuel.
    assert (two_opt_loop fuel [a; b; c; d] = None
            ∧ two_opt_loop fuel [a; c; b; d] = None) as [Hnone _]; [|done].
    induction fuel as [|fuel [IH1 IH2]]; [done|].
    split; cbn [two_opt_loop]; rewrite first_crossing_four.
    + rewrite H.
      by change (reverse_slice [a; b; c; d] (0 + 1) (2 + 1))
        with [a; c; b; d].
    + rewrite H'.
      by change (reverse_slice [a; c; b; d] (0 + 1) (2 + 1))
        with [a; b; c; d].
Qed.

Lemma two_opt_four_waypoints_witness :
  optimize_waypoint_order_by_two_opt 2 bowtie
  = Some [wp "a" 0 0; wp "c" 1 0; wp "b" 1 1; wp "d" 0 1].
Proof.
  destruct (two_opt_four_waypoints (wp "a" 0 0) (wp "b" 1 1) (wp "c" 1 0)
              (wp "d" 0 1)) as (_ & H & _).
  apply H; vm_compute; reflexivity.
Defined.

End TwoOptMore.

(** ** The ranking stage: what is written back *)

Section RankingMore.
Import Ranking.
Implicit Types (m : scorer_model) (routes : list loc) (σ : state).
Implicit Types (h : gmap loc route).

Lemma write_scores_cons h r routes s scores :
  write_scores h (r :: routes) (s :: scores)
  = write_scores (alter (set_score s) r h) routes scores.
Proof. reflexivity. Qed.

Lemma write_scores_not_listed h routes scores (l : loc) :
  l ∉ routes → write_scores h routes scores !! l = h !! l.
Proof.
  revert h scores. induction routes as [|r routes IH]; intros h scores Hl.
  - by destruct scores.
  - destruct scores as [|s scores]; [done|].
    apply not_elem_of_cons in Hl as [Hne Hl].
    rewrite write_scores_cons, IH by done. by rewrite lookup_alter_ne.
Qed.

Lemma write_scores_nth h routes scores i (r : loc) s d :
  NoDup routes → routes !! i = Some r → scores !! i = Some s →
  h !! r = Some d →
  write_scores h routes scores !! r = Some (set_score s d).
Proof.
  revert h scores i.
  induction routes as [|r0 routes IH]; intros h scores i Hnd Hr Hs Hd;
    [done|].
  destruct scores as [|s0 scores]; [done|].
  apply NoDup_cons in Hnd as [Hr0 Hnd]. rewrite write_scores_cons.
  destruct i as [|i]; simpl in *.
  - injection Hr as ->. injection Hs as ->.
    rewrite write_scores_not_listed by done.
    by rewrite lookup_alter_eq, Hd.
  - assert (r0 ≠ r) as Hne.
    { intros ->. apply Hr0. by eapply list_elem_of_lookup_2. }
    eapply IH; eauto. by rewrite lookup_alter_ne.
Qed.

(** When the listed candidates are distinct objects, the one at position
    [i] leaves [rank_routes] with the score the model returned at position
    [i] and is otherwise the dict it was. *)
Theorem rank_routes_writes_scores m routes σ i (r : loc) s d :
  NoDup routes → routes !! i = Some r →
  model_scores m (heap σ) routes !! i = Some s →
  heap σ !! r = Some d →
  heap (rank_routes m routes σ).2 !! r = Some (set_score s d).
Proof.
  intros Hnd Hr Hs Hd. destruct routes as [|r0 routes]; [done|].
  simpl. by eapply write_scores_nth.
Qed.

Lemma rank_routes_writes_scores_witness :
  heap (rank_routes (fixed_scores [0.9; 0.4; 0.7]%float) [0; 1; 2]
          (State heap4 0)).2 !! 2
  = Some (set_score 0.7%float (cand "route_3")).
Proof.
  apply (rank_routes_writes_scores (fixed_scores [0.9; 0.4; 0.7]%float)
           [0; 1; 2] (State heap4 0) 2 2 0.7%float (cand "route_3")).
  - apply (bool_decide_unpack _). vm_compute. reflexivity.
  - reflexivity.
  - reflexivity.
  - vm_compute. reflexivity.
Defined.

(** A candidate for which the model returned no score (its answer is
    shorter than the list) keeps the dict it had, with or without a
    score. *)
Theorem rank_routes_unscored_untouched m routes σ i (r : loc) :
  NoDup routes → routes !! i = Some r →
  length (model_scores m (heap σ) routes) ≤ i →
  heap (rank_routes m routes σ).2 !! r = heap σ !! r.
Proof.
  intros Hnd Hr Hlen. destruct routes as [|r0 routes]; [done|].
  simpl. set (rs := r0 :: routes) in *.
  generalize dependent (model_scores m (heap σ) rs). intros scores Hlen.
  clearbody rs. generalize (heap σ) as h. intros h.
  revert h scores i Hr Hlen.
  induction rs as [|r1 rs IH]; intros h scores i Hr Hlen; [done|].
  destruct scores as [|s scores]; [done|].
  apply NoDup_cons in Hnd as [Hr1 Hnd].
  destruct i as [|i]; simpl in *; [lia|].
  rewrite write_scores_cons, (IH Hnd _ scores i) by (done || lia).
  apply lookup_alter_ne. intros ->. apply Hr1.
  by eapply list_elem_of_lookup_2.
Qed.

Lemma rank_routes_unscored_untouched_witness :
  heap (rank_routes (fixed_scores [0.9; 0.4]%float) [0; 1; 2]
          (State heap4 0)).2 !! 2
  = heap (State heap4 0) !! 2.
Proof.
  apply (rank_routes_unscored_untouched (fixed_scores [0.9; 0.4]%float)
           [0; 1; 2] (State heap4 0) 2 2).
  - apply (bool_decide_unpack _). vm_compute. reflexivity.
  - reflexivity.
  - simpl. lia.
Defined.

End RankingMore.

(** ** Candidate assembly: where the pieces of a candidate come from *)

Section GenerationMore.
Import Generation.
Context (calculate_bearing : float → float → float → float → float).
Context (draw : nat → nat → nat).
Context (ms : map_service).
Implicit Types (crit : Request.RouteCriteria) (r : route).

Lemma sample_submseteq {A} draws (population : list A) k :
  sample draws population k ⊆+ population.
Proof.
  revert draws population.
  induction k as [|k IH]; intros draws population; simpl.
  - apply submseteq_nil_l.
  - destruct (population !! _) as [x|] eqn:Hx; [|apply submseteq_nil_l].
    etrans; [apply submseteq_skip, IH|].
    apply Permutation_submseteq. symmetry. by apply delete_Permutation.
Qed.

Lemma selected_submseteq candidates i :
  selected_waypoints draw candidates i ⊆+ candidates.
Proof.
  unfold selected_waypoints. cbv zeta.
  destruct (_ <? _)%nat; [done|apply sample_submseteq].
Qed.

(** Membership in the pool computed on values. *)
Lemma pool_membership crit (q : place) :
  q ∈ all_waypoint_candidates ms crit
  ↔ ∃ cat found p,
      cat ∈ target_categories
      ∧ find_nearby_places ms (Request.center crit)
          (Request.radius_km crit / 2)%float [cat] = Returns found
      ∧ p ∈ found ∧ q = tag cat p.
Proof.
  unfold all_waypoint_candidates. cbv zeta.
  rewrite list_elem_of_In, in_flat_map. split.
  - intros (cat & Hcat & Hq). unfold search_category_places in Hq.
    destruct (find_nearby_places _ _ _ _) as [found|] eqn:Hf; [|done].
    apply list_elem_of_In, list_elem_of_fmap in Hq as (p & -> & Hp).
    exists cat, found, p. by rewrite list_elem_of_In.
  - intros (cat & found & p & Hcat & Hf & Hp & ->).
    exists cat. rewrite <-!list_elem_of_In. split; [done|].
    unfold search_category_places. rewrite Hf.
    apply list_elem_of_fmap. eauto.
Qed.

Lemma pool_tagged crit :
  Forall (λ p, ∃ cat, cat ∈ target_categories
                      ∧ search_category p = Some cat)
    (all_waypoint_candidates ms crit).
Proof.
  apply Forall_forall. intros q Hq.
  apply pool_membership in Hq as (cat & found & p & Hcat & _ & _ & ->).
  by exists cat.
Qed.

(** Everything an appended candidate holds, read off the attempt. *)
Lemma attempt_Some_fields fuel crit candidates i r :
  attempt calculate_bearing draw ms fuel crit candidates i = Some (Some r) →
  route_id r = "route_" +:+ pretty (i + 1)
  ∧ criteria r = crit
  ∧ center (metadata r) = Request.center crit
  ∧ search_radius_km (metadata r) = (Request.radius_km crit / 2)%float
  ∧ route_type (metadata r) = Request.route_type crit
  ∧ place_ids (waypoints r) = map place_id (places (waypoints r))
  ∧ get_directions ms i (Request.center crit) (place_ids (waypoints r))
    = Returns (Some (route_info r)).
Proof.
  unfold attempt.
  destruct (selected_length draw candidates i) as [Hlen _].
  destruct (angle_order_short calculate_bearing fuel
              (Request.center crit) _ Hlen) as (ordered & -> & Hp).
  simpl. destruct (get_directions _ _ _ _) as [[rd|]|] eqn:Hd; try done.
  destruct (mapM search_category ordered) as [cats|]; [|done].
  by intros [= <-].
Qed.

(** The candidates stand in the order of their attempts: they are the
    results of an increasing selection of the attempt indices. *)
Lemma attempts_sublist fuel crit candidates idxs cs :
  attempts calculate_bearing draw ms fuel crit candidates idxs = Some cs →
  ∃ done_,
    done_ `sublist_of` idxs
    ∧ Forall2 (λ i r,
        attempt calculate_bearing draw ms fuel crit candidates i
        = Some (Some r)) done_ cs.
Proof.
  revert cs. induction idxs as [|i idxs IH]; simpl; intros cs.
  - intros [= <-]. exists []. by split; constructor.
  - destruct (attempt _ _ _ _ _ _ i) as [c|] eqn:Hc; [|done]. simpl.
    destruct (attempts _ _ _ _ _ _ idxs) as [cs'|]; [|done].
    simpl. intros [= <-].
    destruct (IH cs' eq_refl) as (done_ & Hsub & Hall).
    destruct c as [r|].
    + exists (i :: done_). split; by constructor.
    + exists done_. split; [by constructor|done].
Qed.

Lemma generate_ids fuel crit max_routes :
  ∃ cs ks,
    generate_candidate_routes calculate_bearing draw ms fuel crit max_routes
    = Some cs
    ∧ length cs ≤ max_routes
    ∧ NoDup (map route_id cs)
    ∧ map route_id cs = map (λ k, "route_" +:+ pretty k) ks
    ∧ ks `sublist_of` seq 1 max_routes.
Proof.
  destruct (generate_candidate_routes_total calculate_bearing draw ms fuel
              crit max_routes) as (cs & Hcs & _).
  assert (∃ done_, done_ `sublist_of` seq 0 max_routes
    ∧ Forall2 (λ i r, route_id r = "route_" +:+ pretty (i + 1)) done_ cs)
    as (done_ & Hsub & Hids).
  { unfold generate_candidate_routes in Hcs.
    destruct (all_waypoint_candidates ms crit) as [|p ps].
    - injection Hcs as <-. exists []. split; [apply sublist_nil_l|constructor].
    - apply attempts_sublist in Hcs as (done_ & Hsub & Hall).
      exists done_. split; [done|].
      eapply Forall2_impl; [exact Hall|]. simpl. intros i r Hi.
      by apply attempt_Some_fields in Hi as (? & _). }
  assert (map route_id cs = map (λ i, "route_" +:+ pretty (i + 1)) done_)
    as Hmap.
  { clear -Hids. induction Hids; simpl; congruence. }
  exists cs, (map (λ i, i + 1) done_). split_and!.
  - done.
  - rewrite <-(Forall2_length _ _ _ Hids).
    apply sublist_length in Hsub. by rewrite length_seq in Hsub.
  - rewrite Hmap. apply (NoDup_fmap_2_strong _).
    + intros i j _ _ Heq. apply (inj (String.app _)) in Heq.
      apply (inj pretty) in Heq. lia.
    + eapply sublist_NoDup; [apply NoDup_seq|done].
  - by rewrite Hmap, map_map.
  - rewrite <-(fmap_S_seq 0).
    replace (map (λ i, i + 1) done_) with (S <$> done_)
      by (apply map_ext; intros; lia).
    by apply fmap_sublist.
Qed.

(** Candidate generation returns, whatever the fuel; it returns at most
    [max_routes] candidates; their ids are ["route_k"] for distinct
    [k] between 1 and [max_routes], in increasing order of [k]. *)
Theorem candidates_ids fuel crit max_routes :
  ∃ cs ks,
    generate_candidate_routes calculate_bearing draw ms fuel crit max_routes
    = Some cs
    ∧ length cs ≤ max_routes
    ∧ NoDup (map route_id cs)
    ∧ map route_id cs = map (λ k, "route_" +:+ pretty k) ks
    ∧ ks `sublist_of` seq 1 max_routes.
Proof. apply generate_ids. Qed.

(** The waypoints of a candidate are places of the pool, none used more
    often than the pool holds it; each carries one of the four target
    categories; [place_ids] lists their ids in the same order and
    [categories_used] names target categories only. *)
Theorem candidates_waypoints_from_pool fuel crit max_routes :
  ∃ cs,
    generate_candidate_routes calculate_bearing draw ms fuel crit max_routes
    = Some cs
    ∧ ∀ r, r ∈ cs →
        places (waypoints r) ⊆+ all_waypoint_candidates ms crit
        ∧ place_ids (waypoints r) = map place_id (places (waypoints r))
        ∧ Forall (λ p, ∃ cat, cat ∈ target_categories
                              ∧ search_category p = Some cat)
            (places (waypoints r))
        ∧ Forall (λ cat, cat ∈ target_categories)
            (categories_used (metadata r)).
Proof.
  destruct (generate_candidate_routes_total calculate_bearing draw ms fuel
              crit max_routes) as (cs & Hcs & Hall).
  exists cs. split; [done|]. intros r Hr.
  destruct (Hall r Hr) as (_ & i & Hi).
  pose proof (attempt_Some_fields _ _ _ _ _ Hi) as (_&_&_&_&_& Hids & _).
  apply attempt_Some in Hi as (Hp & _ & _ & cats & Hcats & Hused).
  assert (places (waypoints r) ⊆+ all_waypoint_candidates ms crit) as Hsub.
  { rewrite Hp. apply selected_submseteq. }
  assert (Forall (λ p, ∃ cat, cat ∈ target_categories
                              ∧ search_category p = Some cat)
            (places (waypoints r))) as Htag.
  { apply Forall_forall. intros p Hp'.
    eapply elem_of_submseteq in Hp'; [|exact Hsub].
    pose proof (pool_tagged crit) as Hpool.
    by eapply Forall_forall in Hpool. }
  split_and!; [done..|].
  rewrite Hused. apply Forall_forall. intros cat.
  rewrite elem_of_elements, elem_of_list_to_set. intros Hcat.
  apply mapM_Some in Hcats.
  apply list_elem_of_lookup in Hcat as [n Hn].
  destruct (Forall2_lookup_r _ _ _ _ _ Hcats Hn) as (p & Hp' & Hpc).
  apply list_elem_of_lookup_2 in Hp'.
  eapply Forall_forall in Htag as (cat' & Hcat' & Heq); [|exact Hp'].
  congruence.
Qed.

(** The route data of a candidate is the answer the directions provider
    gave, in the attempt the candidate is named after, to the request made
    with the centre as origin and the candidate's own place ids; the
    criteria and the centre are echoed. *)
Theorem candidates_route_info fuel crit max_routes :
  ∃ cs,
    generate_candidate_routes calculate_bearing draw ms fuel crit max_routes
    = Some cs
    ∧ ∀ r, r ∈ cs → ∃ i,
        i < max_routes
        ∧ route_id r = "route_" +:+ pretty (i + 1)
        ∧ get_directions ms i (Request.center crit) (place_ids (waypoints r))
          = Returns (Some (route_info r))
        ∧ criteria r = crit
        ∧ center (metadata r) = Request.center crit
        ∧ search_radius_km (metadata r) = (Request.radius_km crit / 2)%float.
Proof.
  destruct (generate_candidate_routes_total calculate_bearing draw ms fuel
              crit max_routes) as (cs & Hcs & _).
  exists cs. split; [done|]. intros r Hr.
  unfold generate_candidate_routes in Hcs.
  destruct (all_waypoint_candidates ms crit) as [|p ps].
  { injection Hcs as <-. by apply elem_of_nil in Hr. }
  apply attempts_sublist in Hcs as (done_ & Hsub & Hall).
  apply list_elem_of_lookup in Hr as [n Hn].
  destruct (Forall2_lookup_r _ _ _ _ _ Hall Hn) as (i & Hi & Hat).
  apply attempt_Some_fields in Hat as (?&?&?&?&?&?&?).
  exists i. split_and!; try done.
  apply list_elem_of_lookup_2 in Hi.
  eapply elem_of_sublist in Hi; [|exact Hsub].
  apply list_elem_of_In, in_seq in Hi. lia.
Qed.

End GenerationMore.

(** ** Candidate assembly: the order of the waypoints, and full success *)

Section AscendingSort.
Context {A : Type} (key : A → float).

Lemma insert_sorted x l :
  is_nan (key x) = false → Forall (λ y, is_nan (key y) = false) l →
  StronglySorted (λ a b, (key a <=? key b)%float = true) l →
  StronglySorted (λ a b, (key a <=? key b)%float = true)
    (Py.insert (λ y x, key y <? key x)%float x l).
Proof.
  intros Hx Hl Hs. induction Hs as [|y l Hs IH Hy]; simpl.
  - repeat constructor.
  - apply Forall_cons in Hl as [Hny Hl].
    destruct (key y <? key x)%float eqn:Hlt.
    + constructor; [by apply IH|].
      eapply Forall_forall. intros z Hz.
      rewrite insert_perm in Hz. apply elem_of_cons in Hz as [->|Hz].
      * by apply float_ltb_leb.
      * by eapply Forall_forall in Hy.
    + assert ((key x <=? key y)%float = true) as Hxy
        by (by apply float_leb_total).
      constructor; [by constructor|].
      constructor; [done|].
      eapply Forall_impl; [exact Hy|]. simpl. intros z Hz.
      by eapply float_leb_trans.
Qed.

Lemma sorted_sorted l :
  Forall (λ y, is_nan (key y) = false) l →
  StronglySorted (λ a b, (key a <=? key b)%float = true) (Py.sorted key l).
Proof.
  unfold Py.sorted, Py.sort.
  induction l as [|x l IH]; simpl; intros Hl; [constructor|].
  apply Forall_cons in Hl as [Hx Hl].
  apply insert_sorted; [done| |by apply IH].
  eapply Forall_forall. intros y Hy.
  change (y ∈ Py.sort (λ y x, key y <? key x)%float l) in Hy.
  rewrite sort_perm in Hy. by eapply Forall_forall in Hl.
Qed.

End AscendingSort.

Section GenerationOrder.
Import Generation.
Context (calculate_bearing : float → float → float → float → float).
Context (draw : nat → nat → nat).
Context (ms : map_service).
Implicit Types (crit : Request.RouteCriteria) (r : route).

(** The bearing of a place as [_optimize_waypoint_order_by_angle] computes
    it. *)
Definition bearing_from (center : float * float) (p : place) : float :=
  calculate_bearing center.1 center.2 (location p).1 (location p).2.

Lemma decorated_sorted_fst center (l : list (place * float)) :
  Forall (λ x, x.2 = bearing_from center x.1) l →
  StronglySorted (λ a b, (a.2 <=? b.2)%float = true) l →
  StronglySorted
    (λ p q, (bearing_from center p <=? bearing_from center q)%float = true)
    (map fst l).
Proof.
  intros Hl Hs. induction Hs as [|x l Hs IH Hx]; simpl; [constructor|].
  apply Forall_cons in Hl as [Hx2 Hl]. constructor; [by apply IH|].
  apply Forall_fmap, Forall_forall. intros y Hy. simpl.
  pose proof (proj1 (Forall_forall _ _) Hx y Hy) as Hxy.
  pose proof (proj1 (Forall_forall _ _) Hl y Hy) as Hy2.
  simpl in *. by rewrite <-Hx2, <-Hy2.
Qed.

Lemma angle_order_sorted fuel center (wps : list place) :
  length wps ≤ 3 →
  Forall (λ p, is_nan (bearing_from center p) = false) wps →
  ∃ ordered,
    _optimize_waypoint_order_by_angle calculate_bearing fuel center wps
    = Some ordered
    ∧ StronglySorted
        (λ p q,
           (bearing_from center p <=? bearing_from center q)%float = true)
        ordered.
Proof.
  intros Hlen Hnan. unfold _optimize_waypoint_order_by_angle.
  destruct (Nat.leb_spec (length wps) 1) as [H1|H1].
  - eexists. split; [done|].
    destruct wps as [|p [|q wps]]; simpl in H1; try lia;
      repeat constructor.
  - set (with_angle := map _ wps).
    assert (Forall (λ x, x.2 = bearing_from center x.1 ∧ x.1 ∈ wps)
              with_angle) as Hdec.
    { unfold with_angle. apply Forall_forall. intros x Hx.
      apply list_elem_of_fmap in Hx as (p & -> & Hp). done. }
    assert (map fst (Py.sorted snd with_angle) ≡ₚ wps) as Hp.
    { unfold Py.sorted. rewrite sort_perm. unfold with_angle.
      rewrite map_map. simpl. by rewrite map_id. }
    eexists. split.
    + apply optimize_short. rewrite Hp. lia.
    + apply decorated_sorted_fst.
      * apply Forall_forall. intros x Hx.
        unfold Py.sorted in Hx. rewrite sort_perm in Hx.
        by eapply Forall_forall in Hdec as [? _].
      * apply sorted_sorted. apply Forall_forall. intros x Hx.
        eapply Forall_forall in Hdec as [-> Hin]; [|exact Hx].
        by eapply Forall_forall in Hnan.
Qed.

Lemma attempt_places fuel crit candidates i r :
  attempt calculate_bearing draw ms fuel crit candidates i = Some (Some r) →
  _optimize_waypoint_order_by_angle calculate_bearing fuel
    (Request.center crit) (selected_waypoints draw candidates i)
  = Some (places (waypoints r)).
Proof.
  unfold attempt.
  destruct (_optimize_waypoint_order_by_angle _ _ _ _) as [ordered|];
    [|done].
  simpl. destruct (get_directions _ _ _ _) as [[rd|]|]; try done.
  destruct (mapM search_category ordered) as [cats|]; [|done].
  by intros [= <-].
Qed.

(** When no place of the pool has a NaN bearing, the waypoints of every
    candidate stand in ascending order of their bearing from the centre. *)
Theorem candidates_sorted_by_bearing fuel crit max_routes :
  Forall (λ p, is_nan (bearing_from (Request.center crit) p) = false)
    (all_waypoint_candidates ms crit) →
  ∃ cs,
    generate_candidate_routes calculate_bearing draw ms fuel crit max_routes
    = Some cs
    ∧ ∀ r, r ∈ cs →
        StronglySorted
          (λ p q, (bearing_from (Request.center crit) p
                   <=? bearing_from (Request.center crit) q)%float = true)
          (places (waypoints r)).
Proof.
  intros Hnan.
  destruct (generate_candidate_routes_total calculate_bearing draw ms fuel
              crit max_routes) as (cs & Hcs & Hall).
  exists cs. split; [done|]. intros r Hr.
  destruct (Hall r Hr) as (_ & i & Hi).
  apply attempt_places in Hi.
  destruct (selected_length draw (all_waypoint_candidates ms crit) i)
    as [Hlen _].
  destruct (angle_order_sorted fuel (Request.center crit) _ Hlen)
    as (ordered & Hord & Hsorted); [|congruence].
  apply Forall_forall. intros p Hp.
  eapply elem_of_submseteq in Hp; [|apply selected_submseteq].
  by eapply Forall_forall in Hnan.
Qed.

Lemma attempts_all_succeed fuel crit idxs :
  (∀ i center ids, ∃ rd,
     get_directions ms i center ids = Returns (Some rd)) →
  ∃ cs,
    attempts calculate_bearing draw ms fuel crit
      (all_waypoint_candidates ms crit) idxs = Some cs
    ∧ length cs = length idxs.
Proof.
  intros Hdir.
  induction idxs as [|i idxs (cs & Hcs & Hlen)]; simpl; [by eexists|].
  assert (∃ r, attempt calculate_bearing draw ms fuel crit
                 (all_waypoint_candidates ms crit) i = Some (Some r))
    as [r Hr].
  { unfold attempt.
    destruct (selected_length draw (all_waypoint_candidates ms crit) i)
      as [Hl _].
    destruct (angle_order_short calculate_bearing fuel
                (Request.center crit) _ Hl) as (ordered & -> & Hperm).
    simpl.
    destruct (Hdir i (Request.center crit) (map place_id ordered))
      as [rd ->].
    assert (is_Some (mapM search_category ordered)) as [cats ->];
      [|by eexists].
    apply mapM_is_Some, Forall_forall. intros p Hin. simpl.
    rewrite Hperm in Hin.
    eapply elem_of_submseteq in Hin; [|apply selected_submseteq].
    pose proof (pool_tagged ms crit) as Htag.
    eapply Forall_forall in Htag as (cat & _ & ->); [|exact Hin]. eauto. }
  rewrite Hr, Hcs. simpl. eexists. split; [done|]. simpl. by rewrite Hlen.
Qed.

(** When the pool is not empty and the directions provider answers every
    request with a route, every attempt appends a candidate: there are
    exactly [max_routes] of them. *)
Theorem candidates_all_attempts_succeed fuel crit max_routes :
  all_waypoint_candidates ms crit ≠ [] →
  (∀ i center ids, ∃ rd,
     get_directions ms i center ids = Returns (Some rd)) →
  ∃ cs,
    generate_candidate_routes calculate_bearing draw ms fuel crit max_routes
    = Some cs
    ∧ length cs = max_routes.
Proof.
  intros Hpool Hdir.
  destruct (attempts_all_succeed fuel crit (seq 0 max_routes) Hdir)
    as (cs & Hcs & Hlen).
  exists cs. rewrite length_seq in Hlen. split; [|done].
  unfold generate_candidate_routes.
  by destruct (all_waypoint_candidates ms crit).
Qed.

End GenerationOrder.

(* three parks around the centre; the bearing of a place is read off its
   longitude; draw 1 asks for three waypoints *)
Definition ms_three_parks : Generation.map_service :=
  {| Generation.find_nearby_places := λ _ _ categories,
       if decide (categories = ["park"]) then
         Generation.Returns
           [Place "p1" "East" (1.28, 103.88)%float "park" None 4.6 0.4;
            Place "p2" "West" (1.28, 103.84)%float "park" None 4.1 0.7;
            Place "p3" "North" (1.30, 103.86)%float "park" None 3.9 0.9]
       else Generation.Returns [];
     Generation.get_directions := λ _ _ _,
       Generation.Returns (Some Generation.rd0) |}.

Definition bearing_lng : float → float → float → float → float :=
  λ _ _ _ lng, lng.

Lemma generate_three_parks :
  map (λ r, place_ids (waypoints r))
    <$> Generation.generate_candidate_routes bearing_lng (λ _ _, 1)
          ms_three_parks 0 Request.crit0 1
  = Some [["p2"; "p3"; "p1"]].
Proof. vm_compute. reflexivity. Qed.

Lemma candidates_sorted_by_bearing_witness :
  ∃ cs,
    Generation.generate_candidate_routes bearing_lng (λ _ _, 1)
      ms_three_parks 0 Request.crit0 1 = Some cs
    ∧ ∀ r, r ∈ cs →
        StronglySorted
          (λ p q,
             (bearing_from bearing_lng (Request.center Request.crit0) p
              <=? bearing_from bearing_lng
                    (Request.center Request.crit0) q)%float = true)
          (places (waypoints r)).
Proof.
  apply (candidates_sorted_by_bearing bearing_lng (λ _ _, 1)
           ms_three_parks 0 Request.crit0 1).
  repeat (constructor; [vm_compute; reflexivity|]). constructor.
Defined.

Lemma candidates_all_attempts_succeed_witness :
  ∃ cs,
    Generation.generate_candidate_routes Generation.bearing0
      Generation.draw0 Generation.ms_one_park 0 Request.crit0 3 = Some cs
    ∧ length cs = 3.
Proof.
  apply (candidates_all_attempts_succeed Generation.bearing0
           Generation.draw0 Generation.ms_one_park 0 Request.crit0 3).
  - vm_compute. discriminate.
  - intros i center ids. by eexists.
Defined.

(** ** Response building and the orchestration: what reaches the caller *)

Section RouteServiceMore.
Import Generation.
Context (calculate_bearing : float → float → float → float → float).
Context (draw : nat → nat → nat).
Context (ms : map_service).
Context (model : Ranking.scorer_model).
Implicit Types (crit : Request.RouteCriteria).

Lemma fmap_imap_ext {A B C} (f : B → C) (g : nat → A → B) (k : A → C)
    (l : list A) :
  (∀ i x, f (g i x) = k x) → f <$> imap g l = k <$> l.
Proof.
  intros Hfg. revert g Hfg.
  induction l as [|x l IH]; intros g Hfg; [done|].
  rewrite imap_cons, !fmap_cons, Hfg. f_equal. apply IH.
  intros i y. apply Hfg.
Qed.

Lemma build_response_fields (routes_data : list route) :
  Response.success (ResponseBuilder.build_response routes_data) = true
  ∧ Response.total_count (ResponseBuilder.build_response routes_data)
    = length routes_data
  ∧ Response.id
      <$> Response.routes (ResponseBuilder.build_response routes_data)
    = route_id <$> routes_data
  ∧ (λ R, RouteData
            (Response.overview_polyline (Response.geometry R))
            (Response.duration R) (Response.distance R)
            (Response.viewport (Response.geometry R)))
      <$> Response.routes (ResponseBuilder.build_response routes_data)
    = route_info <$> routes_data
  ∧ Response.metadata
      <$> Response.routes (ResponseBuilder.build_response routes_data)
    = metadata <$> routes_data
  ∧ Response.score
      <$> Response.routes (ResponseBuilder.build_response routes_data)
    = (λ d, default 0.8%float (score d)) <$> routes_data
  ∧ (λ R, Response.place_id <$> Response.waypoints R)
      <$> Response.routes (ResponseBuilder.build_response routes_data)
    = (λ d, place_id <$> places (waypoints d)) <$> routes_data.
Proof.
  unfold ResponseBuilder.build_response. simpl.
  split_and!; [done|by rewrite length_imap|..];
    apply fmap_imap_ext; intros i d; simpl; try done.
  - by destruct (route_info d).
  - by rewrite <-list_fmap_compose.
Qed.

(** [build_response] keeps the candidates in order and passes their id,
    distance, duration, polyline, viewport and metadata through unchanged;
    a candidate without a score is given 0.8; the count is the number of
    routes. *)
Theorem build_response_passes_through (routes_data : list route) :
  Response.success (ResponseBuilder.build_response routes_data) = true
  ∧ Response.total_count (ResponseBuilder.build_response routes_data)
    = length routes_data
  ∧ Response.id
      <$> Response.routes (ResponseBuilder.build_response routes_data)
    = route_id <$> routes_data
  ∧ (λ R, RouteData
            (Response.overview_polyline (Response.geometry R))
            (Response.duration R) (Response.distance R)
            (Response.viewport (Response.geometry R)))
      <$> Response.routes (ResponseBuilder.build_response routes_data)
    = route_info <$> routes_data
  ∧ Response.metadata
      <$> Response.routes (ResponseBuilder.build_response routes_data)
    = metadata <$> routes_data
  ∧ Response.score
      <$> Response.routes (ResponseBuilder.build_response routes_data)
    = (λ d, default 0.8%float (score d)) <$> routes_data
  ∧ (λ R, Response.place_id <$> Response.waypoints R)
      <$> Response.routes (ResponseBuilder.build_response routes_data)
    = (λ d, place_id <$> places (waypoints d)) <$> routes_data.
Proof. apply build_response_fields. Qed.

Lemma rank_routes_heap routes σ :
  Ranking.heap (Ranking.rank_routes model routes σ).2
  = Ranking.write_scores (Ranking.heap σ) routes
      (Ranking.model_scores model (Ranking.heap σ) routes).
Proof. by destruct routes. Qed.

(** The dicts handed to [build_response]: for addresses below the number
    of candidates, the stored candidate, changed at most in its score. *)
Lemma framed_dicts (cs : list route) (h' : gmap nat route)
    (ls : list nat) :
  (∀ l, option_Forall2 Ranking.same_but_score (cs !! l) (h' !! l)) →
  Forall (λ l, l < length cs) ls →
  Forall2 (λ l c', ∃ c, cs !! l = Some c ∧ Ranking.same_but_score c c')
    ls (omap (λ r : nat, h' !! r) ls).
Proof.
  intros Hh. induction 1 as [|l ls Hl _ IH]; [constructor|].
  apply lookup_lt_is_Some in Hl as [c Hc]. cbn.
  specialize (Hh l). rewrite Hc in Hh.
  destruct (h' !! l) as [c'|] eqn:Hl'; inversion Hh; subst.
  constructor; [|exact IH]. eauto.
Qed.

Lemma ranked_dicts (cs : list route) routes (ls : list nat) :
  Forall (λ l, l < length cs) ls →
  Forall2 (λ l c', ∃ c, cs !! l = Some c ∧ Ranking.same_but_score c c')
    ls
    (omap (λ r : nat, Ranking.heap
                  (Ranking.rank_routes model routes
                     (Ranking.State (map_seq 0 cs) 0)).2 !! r) ls).
Proof.
  apply framed_dicts. intros l.
  rewrite rank_routes_heap, <-(lookup_map_seq_0 (M:=gmap nat) cs l).
  apply write_scores_frame.
Qed.

Lemma ranked_perm (cs : list route) :
  (Ranking.rank_routes model (seq 0 (length cs))
     (Ranking.State (map_seq 0 cs) 0)).1 ≡ₚ seq 0 (length cs).
Proof. rewrite rank_routes_out. apply sort_perm. Qed.

(** The list of dicts that [generate_routes] hands to [build_response]
    when there are candidates. *)
Definition ranked_top (cs : list route) : list route :=
  omap (λ r : nat,
          Ranking.heap
            (Ranking.rank_routes model (seq 0 (length cs))
               (Ranking.State (map_seq 0 cs) 0)).2 !! r)
    (take 5 (Ranking.rank_routes model (seq 0 (length cs))
               (Ranking.State (map_seq 0 cs) 0)).1).

Lemma generate_routes_nonempty fuel crit cs :
  generate_candidate_routes calculate_bearing draw ms fuel crit 20
  = Some cs →
  cs ≠ [] →
  RouteService.generate_routes calculate_bearing draw ms model fuel crit
  = Some
      {| Response.success :=
           Response.success (ResponseBuilder.build_response (ranked_top cs));
         Response.message :=
           Response.message (ResponseBuilder.build_response (ranked_top cs));
         Response.routes :=
           Response.routes (ResponseBuilder.build_response (ranked_top cs));
         Response.total_count :=
           Response.total_count
             (ResponseBuilder.build_response (ranked_top cs));
         Response.criteria := Some crit |}.
Proof.
  intros Hcs Hne. unfold RouteService.generate_routes, ranked_top.
  rewrite Hcs. destruct cs as [|c0 cs']; [done|].
  cbn [mbind option_bind].
  by destruct (Ranking.rank_routes _ _ _) as [ranked σ'].
Qed.

Lemma ranked_top_dicts (cs : list route) :
  ∃ ls : list nat,
    ls `sublist_of`
      (Ranking.rank_routes model (seq 0 (length cs))
         (Ranking.State (map_seq 0 cs) 0)).1
    ∧ length ls = length cs `min` 5
    ∧ NoDup ls
    ∧ Forall2
        (λ (l : nat) c',
           ∃ c, cs !! l = Some c ∧ Ranking.same_but_score c c')
        ls (ranked_top cs).
Proof.
  pose proof (ranked_perm cs) as Hperm.
  exists (take 5 (Ranking.rank_routes model (seq 0 (length cs))
                    (Ranking.State (map_seq 0 cs) 0)).1).
  split_and!.
  - apply sublist_take.
  - rewrite length_take, Hperm, length_seq. lia.
  - eapply sublist_NoDup; [|apply sublist_take].
    rewrite Hperm. apply NoDup_seq.
  - apply ranked_dicts, Forall_take. rewrite Hperm.
    apply Forall_forall. intros l Hl%elem_of_seq. lia.
Qed.

(** With a model that returns a float for every score it gives,
    [generate_routes] returns a response, whatever the fuel, and the
    response is a success.  It holds five candidates, or all of them when
    there are fewer; each returned route is one of the generated
    candidates, with its id, route data and metadata as generated; none is
    returned twice. *)
Lemma generate_routes_shape fuel crit :
  ∃ cs resp,
    generate_candidate_routes calculate_bearing draw ms fuel crit 20
    = Some cs
    ∧ RouteService.generate_routes calculate_bearing draw ms model fuel crit
      = Some resp
    ∧ Response.success resp = true
    ∧ Response.total_count resp = length (Response.routes resp)
    ∧ Response.total_count resp = length cs `min` 5
    ∧ NoDup (Response.id <$> Response.routes resp)
    ∧ Forall (λ R, ∃ c, c ∈ cs
        ∧ Response.id R = route_id c
        ∧ Response.distance R = distance (route_info c)
        ∧ Response.duration R = duration (route_info c)
        ∧ Response.overview_polyline (Response.geometry R)
          = overview_polyline (route_info c)
        ∧ Response.viewport (Response.geometry R) = viewport (route_info c)
        ∧ Response.metadata R = metadata c)
        (Response.routes resp).
Proof.
  destruct (generate_ids calculate_bearing draw ms fuel crit 20)
    as (cs & ks & Hcs & _ & Hnd & _).
  exists cs. destruct (decide (cs = [])) as [->|Hne].
  { exists RouteService.empty_response.
    unfold RouteService.generate_routes. rewrite Hcs.
    split_and!; try done; simpl; constructor. }
  eexists. split; [done|]. split; [by apply generate_routes_nonempty|].
  cbn [Response.success Response.total_count Response.routes].
  destruct (ranked_top_dicts cs) as (ls & _ & Hlen & Hndl & Hd).
  destruct (build_response_fields (ranked_top cs))
    as (Hsucc & Hcount & Hid & Hinfo & Hmd & _).
  assert (route_id <$> ranked_top cs
          = (λ l : nat, default "" (route_id <$> cs !! l)) <$> ls) as Hids.
  { clear -Hd. induction Hd as [|l c' ls ds (c & Hc & Hs) _ IH]; [done|].
    rewrite !fmap_cons, IH, Hc. simpl. f_equal. symmetry. apply Hs. }
  assert (Forall (λ l, l < length cs) ls) as Hlt.
  { apply Forall_forall. intros l Hl.
    apply list_elem_of_lookup in Hl as [n Hn].
    destruct (Forall2_lookup_l _ _ _ _ _ Hd Hn) as (c' & _ & c & Hc & _).
    by eapply lookup_lt_Some. }
  split_and!.
  - done.
  - unfold ResponseBuilder.build_response. simpl. by rewrite length_imap.
  - by rewrite Hcount, <-(Forall2_length _ _ _ Hd).
  - rewrite Hid, Hids. apply NoDup_fmap_2_strong; [|done].
    intros l1 l2 Hl1 Hl2 Heq.
    eapply Forall_forall in Hl1; [|exact Hlt].
    eapply Forall_forall in Hl2; [|exact Hlt].
    apply lookup_lt_is_Some in Hl1 as [c1 Hc1].
    apply lookup_lt_is_Some in Hl2 as [c2 Hc2].
    cbv beta in Heq. rewrite Hc1, Hc2 in Heq. simpl in Heq.
    eapply NoDup_lookup; [exact Hnd|..];
      rewrite list_lookup_fmap; [by rewrite Hc1|by rewrite Hc2, Heq].
  - apply Forall_forall. intros R HR.
    apply list_elem_of_lookup in HR as [n Hn].
    assert (∃ d, ranked_top cs !! n = Some d
                 ∧ R = ResponseBuilder.build_route n d) as (d & Hdn & ->).
    { unfold ResponseBuilder.build_response in Hn. simpl in Hn.
      rewrite list_lookup_imap in Hn.
      destruct (ranked_top cs !! n) as [d|]; [|done].
      injection Hn as <-. eauto. }
    destruct (Forall2_lookup_r _ _ _ _ _ Hd Hdn)
      as (l & _ & c & Hc & Hid' & Hinfo' & _ & Hmd' & _).
    exists c. split; [by eapply list_elem_of_lookup_2|].
    simpl. rewrite <-Hinfo', <-Hmd', <-Hid'. done.
Qed.

Lemma insert_ext {A} (before before' : A → A → bool) x (l : list A) :
  (∀ y, y ∈ l → before y x = before' y x) →
  Py.insert before x l = Py.insert before' x l.
Proof.
  induction l as [|y l IH]; simpl; intros Hb; [done|].
  rewrite <-(Hb y) by apply list_elem_of_here.
  destruct (before y x); [|done]. f_equal. apply IH.
  intros z Hz. apply Hb. by apply list_elem_of_further.
Qed.

Lemma sort_ext {A} (before before' : A → A → bool) (l : list A) :
  (∀ x y, x ∈ l → y ∈ l → before y x = before' y x) →
  Py.sort before l = Py.sort before' l.
Proof.
  unfold Py.sort. induction l as [|x l IH]; simpl; intros Hb; [done|].
  rewrite IH by (intros; apply Hb; by apply list_elem_of_further).
  apply insert_ext. intros y Hy.
  change (y ∈ Py.sort before' l) in Hy. rewrite sort_perm in Hy.
  apply Hb; [apply list_elem_of_here|by apply list_elem_of_further].
Qed.

Lemma insert_fmap {A B} (f : A → B) (before : B → B → bool) x (l : list A) :
  f <$> Py.insert (λ y x, before (f y) (f x)) x l
  = Py.insert before (f x) (f <$> l).
Proof.
  induction l as [|y l IH]; [done|].
  rewrite fmap_cons. cbn [Py.insert].
  destruct (before (f y) (f x)); [|done].
  by rewrite fmap_cons, IH.
Qed.

Lemma sort_fmap {A B} (f : A → B) (before : B → B → bool) (l : list A) :
  f <$> Py.sort (λ y x, before (f y) (f x)) l = Py.sort before (f <$> l).
Proof.
  unfold Py.sort. induction l as [|x l IH]; [done|].
  rewrite fmap_cons. cbn [foldr]. rewrite <-IH. apply insert_fmap.
Qed.

(** After the write-back over addresses [0 .. n-1], with a score for each,
    the dict at an address carries the score of the same index. *)
Lemma scored_dict (cs : list route) (scores : list float) (l : nat) c s :
  cs !! l = Some c → scores !! l = Some s →
  Ranking.write_scores (map_seq 0 cs) (seq 0 (length cs)) scores !! l
  = Some (Ranking.set_score s c).
Proof.
  intros Hc Hs. eapply write_scores_nth; [apply NoDup_seq| |done|].
  - apply lookup_seq. split; [done|]. by eapply lookup_lt_Some.
  - by rewrite lookup_map_seq_0.
Qed.

Lemma scored_top (cs : list route) (h' : gmap nat route) (k : nat → float)
    (ls : list nat) :
  (∀ l, l < length cs → h' !! l = Ranking.set_score (k l) <$> cs !! l) →
  Forall (λ l, l < length cs) ls →
  (λ d, default 0.8%float (score d)) <$> omap (λ r : nat, h' !! r) ls
  = k <$> ls.
Proof.
  intros Hheap. induction 1 as [|l ls Hl _ IH]; [done|].
  cbn [omap list_omap]. rewrite Hheap by done.
  destruct (lookup_lt_is_Some_2 cs l Hl) as [c ->].
  cbn [fmap option_fmap option_map]. rewrite !fmap_cons.
  f_equal. exact IH.
Qed.

(** With one score per candidate, none of them NaN, the scores of the
    returned routes are the five highest scores the model gave (all of
    them when there are fewer), in descending order. *)
Theorem generate_routes_best_scores fuel crit cs :
  generate_candidate_routes calculate_bearing draw ms fuel crit 20
  = Some cs →
  cs ≠ [] →
  length (Ranking.model_scores model (map_seq 0 cs) (seq 0 (length cs)))
  = length cs →
  Forall (λ s, is_nan s = false)
    (Ranking.model_scores model (map_seq 0 cs) (seq 0 (length cs))) →
  ∃ resp,
    RouteService.generate_routes calculate_bearing draw ms model fuel crit
    = Some resp
    ∧ Response.score <$> Response.routes resp
      = take 5 (Py.sorted_reverse id
                  (Ranking.model_scores model (map_seq 0 cs)
                     (seq 0 (length cs))))
    ∧ StronglySorted (λ a b, (b <=? a)%float = true)
        (Response.score <$> Response.routes resp).
Proof.
  intros Hcs Hne Hlen Hnan.
  set (scores := Ranking.model_scores model (map_seq 0 cs)
                   (seq 0 (length cs))) in *.
  eexists. split; [by apply generate_routes_nonempty|].
  cbn [Response.routes].
  destruct (build_response_fields (ranked_top cs))
    as (_ & _ & _ & _ & _ & Hscore & _).
  rewrite Hscore. clear Hscore.
  set (k := λ l : nat, default 0%float (scores !! l)).
  assert (∀ l, l < length cs →
    Ranking.heap (Ranking.rank_routes model (seq 0 (length cs))
                    (Ranking.State (map_seq 0 cs) 0)).2 !! l
    = Ranking.set_score (k l) <$> cs !! l) as Hheap.
  { intros l Hl. rewrite rank_routes_heap. simpl. fold scores.
    destruct (lookup_lt_is_Some_2 cs l Hl) as [c Hc].
    destruct (lookup_lt_is_Some_2 scores l) as [s Hs]; [lia|].
    rewrite (scored_dict cs scores l c s Hc Hs), Hc. unfold k.
    by rewrite Hs. }
  assert (∀ l, l < length cs →
    Ranking.sort_key
      (Ranking.heap (Ranking.rank_routes model (seq 0 (length cs))
                       (Ranking.State (map_seq 0 cs) 0)).2) l = k l)
    as Hkey.
  { intros l Hl. unfold Ranking.sort_key. rewrite Hheap by done.
    by destruct (lookup_lt_is_Some_2 cs l Hl) as [c ->]. }
  assert ((Ranking.rank_routes model (seq 0 (length cs))
             (Ranking.State (map_seq 0 cs) 0)).1
          = Py.sorted_reverse k (seq 0 (length cs))) as Hout.
  { rewrite rank_routes_out. apply sort_ext. intros x y Hx Hy.
    apply elem_of_seq in Hx, Hy. rewrite !Hkey by lia. done. }
  assert (k <$> seq 0 (length cs) = scores) as Hk.
  { apply list_eq. intros i. rewrite list_lookup_fmap.
    destruct (decide (i < length cs)) as [Hi|Hi].
    - rewrite lookup_seq_lt by done. simpl. unfold k.
      by destruct (lookup_lt_is_Some_2 scores i) as [s ->]; [lia|].
    - rewrite lookup_seq_ge, lookup_ge_None_2 by lia. done. }
  assert ((λ d, default 0.8%float (score d)) <$> ranked_top cs
          = take 5 (Py.sorted_reverse id scores)) as ->.
  { unfold ranked_top. rewrite Hout.
    assert (Forall (λ l, l < length cs)
              (take 5 (Py.sorted_reverse k (seq 0 (length cs))))) as Hlt.
    { apply Forall_take. unfold Py.sorted_reverse. rewrite sort_perm.
      apply Forall_forall. intros l Hl%elem_of_seq. lia. }
    assert (Py.sorted_reverse id scores
            = k <$> Py.sorted_reverse k (seq 0 (length cs))) as ->.
    { symmetry.
      etrans; [apply (sort_fmap k (λ y x, x <? y)%float)|].
      by rewrite Hk. }
    rewrite <-fmap_take. by apply (scored_top cs). }
  split; [done|].
  apply (StronglySorted_app_1_l _ _ (drop 5 (Py.sorted_reverse id scores))).
  rewrite take_drop.
  change (λ a b : float, (b <=? a)%float = true)
    with (λ a b : float, (id b <=? id a)%float = true).
  by apply sorted_reverse_sorted.
Qed.

End RouteServiceMore.

(** ** The pool, built in place *)

Section PoolInPlace.
Import Generation.
Implicit Types (find : place_provider) (crit : Request.RouteCriteria).
Implicit Types (store : gmap ploc place) (p : ploc) (c : string).

Lemma tag_tag c c' (x : place) : tag c (tag c' x) = tag c x.
Proof. reflexivity. Qed.

Lemma search_in_place_answered find crit st c :
  search_in_place find (Request.center crit)
    (Request.radius_km crit / 2)%float st c
  = foldl (tag_in_place c) st (answered find crit c).
Proof.
  unfold search_in_place, answered. by destruct (find _ _ _).
Qed.

Lemma tag_in_place_fold c (st : gmap ploc place * list ploc)
    (ps : list ploc) :
  (foldl (tag_in_place c) st ps).2 = st.2 ++ ps
  ∧ ∀ p, (foldl (tag_in_place c) st ps).1 !! p
         = if decide (p ∈ ps) then tag c <$> st.1 !! p else st.1 !! p.
Proof.
  revert st. induction ps as [|p0 ps IH]; intros st; cbn [foldl].
  - split; [by rewrite app_nil_r|]. intros p.
    destruct (decide (p ∈ [])) as [H|_]; [by apply elem_of_nil in H|done].
  - destruct (IH (tag_in_place c st p0)) as [Hpool Hstore].
    split; [rewrite Hpool; cbn [tag_in_place snd]; by rewrite <-app_assoc|].
    intros p. rewrite Hstore. cbn [tag_in_place fst].
    destruct (decide (p = p0)) as [->|Hne].
    + rewrite lookup_alter_eq.
      rewrite (decide_True (P := p0 ∈ p0 :: ps)) by apply list_elem_of_here.
      destruct (decide (p0 ∈ ps)); [|done].
      by destruct (st.1 !! p0).
    + rewrite lookup_alter_ne by done.
      destruct (decide (p ∈ ps)) as [Hin|Hnin].
      * by rewrite decide_True by (by apply list_elem_of_further).
      * rewrite decide_False; [done|].
        intros [?|?]%elem_of_cons; [by apply Hne|by apply Hnin].
Qed.

(** The state of the loop after the categories [cats]. *)
Lemma pool_fold find crit (cats : list string)
    (st : gmap ploc place * list ploc) :
  (foldl (search_in_place find (Request.center crit)
            (Request.radius_km crit / 2)%float) st cats).2
  = st.2 ++ flat_map (answered find crit) cats
  ∧ ∀ p,
      (foldl (search_in_place find (Request.center crit)
                (Request.radius_km crit / 2)%float) st cats).1 !! p
      = match last (filter (λ c, p ∈ answered find crit c) cats) with
        | Some c => tag c <$> st.1 !! p
        | None => st.1 !! p
        end.
Proof.
  induction cats as [|c cats [IHpool IHstore]] using rev_ind.
  - split; [by rewrite app_nil_r|done].
  - rewrite foldl_snoc, search_in_place_answered.
    destruct (tag_in_place_fold c
                (foldl (search_in_place find (Request.center crit)
                          (Request.radius_km crit / 2)%float) st cats)
                (answered find crit c)) as [Hpool Hstore].
    split.
    + rewrite Hpool, IHpool, flat_map_app. cbn [flat_map].
      by rewrite app_nil_r, app_assoc.
    + intros p. rewrite Hstore, IHstore, filter_app.
      destruct (decide (p ∈ answered find crit c)) as [Hin|Hnin].
      * rewrite filter_cons_True, filter_nil by done.
        rewrite last_snoc.
        destruct (last _); [|done]. by destruct (st.1 !! p).
      * rewrite filter_cons_False, filter_nil by done.
        by rewrite app_nil_r.
Qed.

Lemma omap_flat_map {A B C} (f : B → option C) (g : A → list B)
    (l : list A) :
  omap f (flat_map g l) = flat_map (λ x, omap f (g x)) l.
Proof.
  induction l as [|x l IH]; [done|].
  cbn [flat_map]. by rewrite omap_app, IH.
Qed.

Lemma omap_lookup_tag c store store' (ps : list ploc) :
  (∀ p, p ∈ ps → store' !! p = tag c <$> store !! p) →
  omap (λ p, store' !! p) ps = map (tag c) (omap (λ p, store !! p) ps).
Proof.
  induction ps as [|p ps IH]; intros Hps; [done|].
  cbn [omap list_omap]. rewrite (Hps p) by apply list_elem_of_here.
  rewrite IH by (intros q Hq; apply Hps; by apply list_elem_of_further).
  by destruct (store !! p).
Qed.

Lemma flat_map_ext_in {A B} (f g : A → list B) (l : list A) :
  (∀ x, x ∈ l → f x = g x) → flat_map f l = flat_map g l.
Proof.
  induction l as [|x l IH]; intros Hfg; [done|].
  cbn [flat_map]. rewrite (Hfg x) by apply list_elem_of_here.
  by rewrite IH by (intros y Hy; apply Hfg; by apply list_elem_of_further).
Qed.

(** The waypoint pool as the loop builds it.  The pool lists, category
    after category, the dicts of the queries that returned; a query that
    raises adds nothing and stops nothing.  A dict in it carries the tag
    of the last category whose query answered with it, in every entry of
    the pool it has: a dict answered for two categories is tagged with the
    later one in both.  When no dict is handed out for two categories, the
    dicts of the pool read as the places of the queries that returned,
    each tagged with the category that found it. *)
Theorem pool_in_place_spec find directions crit store :
  (pool_in_place find crit store).2
  = flat_map (answered find crit) target_categories
  ∧ (∀ p,
       (pool_in_place find crit store).1 !! p
       = match last_category find crit p with
         | Some c => tag c <$> store !! p
         | None => store !! p
         end)
  ∧ (fresh_dicts find crit →
     omap (λ p, (pool_in_place find crit store).1 !! p)
       (pool_in_place find crit store).2
     = all_waypoint_candidates (value_service find directions store) crit).
Proof.
  destruct (pool_fold find crit target_categories (store, []))
    as [Hpool Hstore].
  fold (pool_in_place find crit store) in Hpool, Hstore.
  cbn [fst snd app] in Hpool, Hstore.
  split_and!; [exact Hpool|exact Hstore|].
  intros Hfresh. rewrite Hpool, omap_flat_map.
  unfold all_waypoint_candidates. cbv zeta.
  apply flat_map_ext_in. intros c Hc.
  unfold search_category_places, value_service. cbn [find_nearby_places].
  assert (omap (λ p, (pool_in_place find crit store).1 !! p)
            (answered find crit c)
          = map (tag c) (omap (λ p, store !! p) (answered find crit c)))
    as Hans.
  { apply omap_lookup_tag. intros p Hp. rewrite Hstore.
    fold (last_category find crit p).
    assert (last_category find crit p = Some c) as ->; [|done].
    unfold last_category.
    assert (c ∈ filter (λ c, p ∈ answered find crit c) target_categories)
      as Hin by (by apply list_elem_of_filter).
    destruct (last _) as [c'|] eqn:Hlast.
    - apply last_Some_elem_of, list_elem_of_filter in Hlast as [Hp' Hc'].
      f_equal. by apply (Hfresh c' c p).
    - apply last_None in Hlast. rewrite Hlast in Hin.
      by apply elem_of_nil in Hin. }
  unfold answered in *.
  by destruct (find (Request.center crit) (Request.radius_km crit / 2)%float
                 [c]).
Qed.

End PoolInPlace.

(** One dict answered for "park" and for "nature": it stands twice in the
    pool and both entries read "nature". *)
Lemma pool_in_place_aliased :
  (Generation.pool_in_place Generation.find_aliased Request.crit0
     {[0 := Generation.gardens]}).2 = [0; 0]
  ∧ search_category
      <$> omap (λ p, (Generation.pool_in_place Generation.find_aliased
                        Request.crit0 {[0 := Generation.gardens]}).1 !! p)
            (Generation.pool_in_place Generation.find_aliased Request.crit0
               {[0 := Generation.gardens]}).2
    = [Some "nature"; Some "nature"].
Proof. split; vm_compute; reflexivity. Qed.

Lemma find_two_fresh :
  Generation.fresh_dicts Generation.find_two Request.crit0.
Proof.
  intros c1 c2 p H1 H2 Hp1 Hp2. unfold Generation.target_categories in *.
  apply list_elem_of_In in Hp1, Hp2.
  repeat (apply elem_of_cons in H1 as [->|H1]);
    [..|by apply elem_of_nil in H1];
    repeat (apply elem_of_cons in H2 as [->|H2]);
    try (by apply elem_of_nil in H2);
    try reflexivity; exfalso;
    vm_compute in Hp1; vm_compute in Hp2; intuition congruence.
Defined.

Lemma pool_in_place_spec_witness :
  omap (λ p, (Generation.pool_in_place Generation.find_two Request.crit0
                (<[1 := Generation.gardens]> {[0 := Generation.gardens]})).1
             !! p)
    (Generation.pool_in_place Generation.find_two Request.crit0
       (<[1 := Generation.gardens]> {[0 := Generation.gardens]})).2
  = Generation.all_waypoint_candidates
      (Generation.value_service Generation.find_two
         (λ _ _ _, Generation.Raises)
         (<[1 := Generation.gardens]> {[0 := Generation.gardens]}))
      Request.crit0.
Proof.
  destruct (pool_in_place_spec Generation.find_two
              (λ _ _ _, Generation.Raises) Request.crit0
              (<[1 := Generation.gardens]> {[0 := Generation.gardens]}))
    as (_ & _ & H).
  apply H, find_two_fresh.
Defined.

(** ** Ranking with a model that can fail *)

Section RaisingFacts.
Import Generation.
Context (calculate_bearing : float → float → float → float → float).
Context (draw : nat → nat → nat).
Context (ms : map_service).
Context (model : Raising.scorer_model).
Implicit Types (crit : Request.RouteCriteria).
Implicit Types (h : gmap Ranking.loc route) (routes : list Ranking.loc).

Lemma raising_write_scores_Returns routes scores h u h' :
  Raising.write_scores h (zip routes scores) = (Returns u, h') →
  ∃ fs, h' = Ranking.write_scores h routes fs.
Proof.
  revert scores h. induction routes as [|r routes IH]; intros scores h.
  - intros [= _ <-]. by exists [].
  - destruct scores as [|[s|] scores]; cbn [zip zip_with Raising.write_scores].
    + intros [= _ <-]. by exists [].
    + intros Hw. apply IH in Hw as [fs ->]. by exists (s :: fs).
    + intros [=].
Qed.

Lemma raising_write_scores_outcome routes scores h :
  (Raising.write_scores h (zip routes scores)).1 = Returns ()
  ↔ Forall is_Some (take (length routes) scores).
Proof.
  revert scores h. induction routes as [|r routes IH]; intros scores h.
  - cbn. split; [constructor|done].
  - destruct scores as [|[s|] scores];
      cbn [zip zip_with Raising.write_scores length take].
    + split; [constructor|done].
    + rewrite IH, Forall_cons. split; [by split; [eexists|]|by intros [_ ?]].
    + cbn. split; [done|]. intros [[? [=]] _]%Forall_cons.
Qed.

Lemma raising_rank_returns m routes σ out σ' :
  Raising.rank_routes m routes σ = (Returns out, σ') →
  ∃ fs, Ranking.rank_routes (Ranking.fixed_scores fs) routes σ = (out, σ').
Proof.
  destruct routes as [|r routes].
  - intros [= <- <-]. by exists [].
  - unfold Raising.rank_routes.
    destruct (Raising.model_scores m (Ranking.heap σ) (r :: routes))
      as [scores|]; [|done].
    destruct (Raising.write_scores _ _) as [[u|] h'] eqn:Hw; [|done].
    intros [= <- <-]. apply raising_write_scores_Returns in Hw as [fs ->].
    by exists fs.
Qed.

Lemma raising_rank_outcome m routes σ :
  (∃ out, (Raising.rank_routes m routes σ).1 = Returns out)
  ↔ routes = [] ∨ Raising.scoring_succeeds m (Ranking.heap σ) routes.
Proof.
  destruct routes as [|r routes].
  - split; [by left|]. intros _. by exists [].
  - unfold Raising.rank_routes, Raising.scoring_succeeds.
    destruct (Raising.model_scores m (Ranking.heap σ) (r :: routes))
      as [scores|].
    + pose proof (raising_write_scores_outcome (r :: routes) scores
                    (Ranking.heap σ)) as Hw.
      destruct (Raising.write_scores _ _) as [[[]|] h'];
        cbn [fst] in *; split.
      * intros _. right. exists scores. split; [done|]. by apply Hw.
      * intros _. eauto.
      * by intros [? [=]].
      * intros [[=]|(ss & [= <-] & Hs)]. by apply Hw in Hs.
    + split; [by intros [? [=]]|]. by intros [[=]|(? & [=] & _)].
Qed.

Lemma raising_generate_nonempty fuel crit cs :
  generate_candidate_routes calculate_bearing draw ms fuel crit 20
  = Some cs →
  cs ≠ [] →
  Raising.generate_routes calculate_bearing draw ms model fuel crit
  = Some
      match Raising.rank_routes model (seq 0 (length cs))
              (Ranking.State (map_seq 0 cs) 0) with
      | (Raises, _) => Raises
      | (Returns ranked_routes, σ') =>
          Returns
            {| Response.success :=
                 Response.success
                   (ResponseBuilder.build_response
                      (omap (λ r, Ranking.heap σ' !! r)
                         (take 5 ranked_routes)));
               Response.message :=
                 Response.message
                   (ResponseBuilder.build_response
                      (omap (λ r, Ranking.heap σ' !! r)
                         (take 5 ranked_routes)));
               Response.routes :=
                 Response.routes
                   (ResponseBuilder.build_response
                      (omap (λ r, Ranking.heap σ' !! r)
                         (take 5 ranked_routes)));
               Response.total_count :=
                 Response.total_count
                   (ResponseBuilder.build_response
                      (omap (λ r, Ranking.heap σ' !! r)
                         (take 5 ranked_routes)));
               Response.criteria := Some crit |}
      end.
Proof.
  intros Hcs Hne. unfold Raising.generate_routes.
  rewrite Hcs. destruct cs as [|c0 cs']; [done|].
  cbn [mbind option_bind].
  by destruct (Raising.rank_routes _ _ _) as [[ranked|] σ'].
Qed.

(** [generate_routes] and the scoring model.  With no candidate the model
    is not asked and the empty response is returned.  With candidates,
    [generate_routes] raises exactly when the model's call raises or
    [float()] rejects the score of one of the candidates; otherwise it
    returns a response with success = true that holds five candidates, or
    all of them when there are fewer, each one of the generated candidates
    with its id, route data and metadata as generated, none of them
    twice.  It ends in one of these ways whatever the fuel. *)
Theorem generate_routes_outcome fuel crit :
  ∃ cs,
    generate_candidate_routes calculate_bearing draw ms fuel crit 20
    = Some cs
    ∧ ((cs ≠ []
        ∧ ¬ Raising.scoring_succeeds model (map_seq 0 cs)
              (seq 0 (length cs))
        ∧ Raising.generate_routes calculate_bearing draw ms model fuel crit
          = Some Raises)
       ∨ ((cs = []
           ∨ Raising.scoring_succeeds model (map_seq 0 cs)
               (seq 0 (length cs)))
          ∧ ∃ resp,
              Raising.generate_routes calculate_bearing draw ms model fuel
                crit
              = Some (Returns resp)
              ∧ Response.success resp = true
              ∧ Response.total_count resp = length (Response.routes resp)
              ∧ Response.total_count resp = length cs `min` 5
              ∧ NoDup (Response.id <$> Response.routes resp)
              ∧ Forall (λ R, ∃ c, c ∈ cs
                  ∧ Response.id R = route_id c
                  ∧ Response.distance R = distance (route_info c)
                  ∧ Response.duration R = duration (route_info c)
                  ∧ Response.overview_polyline (Response.geometry R)
                    = overview_polyline (route_info c)
                  ∧ Response.viewport (Response.geometry R)
                    = viewport (route_info c)
                  ∧ Response.metadata R = metadata c)
                  (Response.routes resp))).
Proof.
  destruct (generate_candidate_routes_total calculate_bearing draw ms fuel
              crit 20) as [cs [Hcs _]].
  exists cs. split; [exact Hcs|].
  destruct (decide (cs = [])) as [->|Hne].
  { right. split; [by left|].
    exists RouteService.empty_response.
    unfold Raising.generate_routes. rewrite Hcs.
    split_and!; try done; simpl; constructor. }
  rewrite (raising_generate_nonempty fuel crit cs Hcs Hne).
  pose proof (raising_rank_outcome model (seq 0 (length cs))
                (Ranking.State (map_seq 0 cs) 0)) as Hout.
  cbn [Ranking.heap] in Hout.
  destruct (Raising.rank_routes model (seq 0 (length cs))
              (Ranking.State (map_seq 0 cs) 0)) as [[out|] σ'] eqn:Hrank.
  - right. split.
    { destruct Hout as [[Hnil|Hok] _]; [by eexists| |by right].
      destruct cs; [done|discriminate]. }
    apply raising_rank_returns in Hrank as [fs Hrank].
    destruct (generate_routes_shape calculate_bearing draw ms
                (Ranking.fixed_scores fs) fuel crit)
      as (cs' & resp & Hcs' & Hgen & Hshape).
    assert (cs' = cs) as -> by congruence.
    rewrite (generate_routes_nonempty calculate_bearing draw ms
               (Ranking.fixed_scores fs) fuel crit cs Hcs Hne) in Hgen.
    unfold ranked_top in Hgen. rewrite Hrank in Hgen. cbn [fst snd] in Hgen.
    injection Hgen as Hgen. exists resp. rewrite <-Hgen at 1.
    split; [reflexivity|exact Hshape].
  - left. split; [exact Hne|]. split; [|reflexivity].
    intros Hok. destruct Hout as [_ Hout].
    destruct Hout as [? [=]]. by right.
Qed.

End RaisingFacts.

(** A model whose call raises, and one whose second score [float()]
    rejects: with the one park found, [generate_routes] raises. *)
Lemma generate_routes_model_raises :
  Raising.generate_routes Generation.bearing0 Generation.draw0
    Generation.ms_one_park Raising.model_raises 0 Request.crit0
  = Some Generation.Raises
  ∧ Raising.generate_routes Generation.bearing0 Generation.draw0
      Generation.ms_one_park Raising.model_bad_score 0 Request.crit0
    = Some Generation.Raises.
Proof. split; vm_compute; reflexivity. Qed.

(* the twenty one-park candidates and a score for each *)
Definition cs20 : list route :=
  Eval vm_compute in
    default []
      (Generation.generate_candidate_routes Generation.bearing0
         Generation.draw0 Generation.ms_one_park 0 Request.crit0 20).

Definition scores20 : list float :=
  [0.31; 0.62; 0.18; 0.94; 0.55; 0.47; 0.73; 0.29; 0.81; 0.66;
   0.12; 0.58; 0.77; 0.91; 0.35; 0.44; 0.69; 0.23; 0.86; 0.50]%float.

Lemma generate_routes_best_scores_witness :
  ∃ resp,
    RouteService.generate_routes Generation.bearing0 Generation.draw0
      Generation.ms_one_park (Ranking.fixed_scores scores20) 0 Request.crit0
    = Some resp
    ∧ Response.score <$> Response.routes resp
      = take 5 (Py.sorted_reverse id
                  (Ranking.model_scores (Ranking.fixed_scores scores20)
                     (map_seq 0 cs20) (seq 0 (length cs20))))
    ∧ StronglySorted (λ a b, (b <=? a)%float = true)
        (Response.score <$> Response.routes resp).
Proof.
  apply (generate_routes_best_scores Generation.bearing0 Generation.draw0
           Generation.ms_one_park (Ranking.fixed_scores scores20) 0
           Request.crit0 cs20).
  - vm_compute. reflexivity.
  - discriminate.
  - reflexivity.
  - repeat (constructor; [vm_compute; reflexivity|]). constructor.
Defined.

Lemma generate_routes_best_scores_example :
  (λ resp, Response.score <$> Response.routes resp)
    <$> RouteService.generate_routes Generation.bearing0 Generation.draw0
          Generation.ms_one_park (Ranking.fixed_scores scores20) 0
          Request.crit0
  = Some [0.94; 0.91; 0.86; 0.81; 0.77]%float.
Proof. vm_compute. reflexivity. Qed.

(** ** The place-type configuration *)

Section PlaceTypesFacts.
Import PlaceTypes.
#[local] Set Warnings "-clear-no-such-hyp".
Implicit Types (G : gmap string (list string)).
Implicit Types (items : list (string * list string)).

Lemma add_category_lookup category G google_type (t c : string) :
  c ∈ default [] (add_category category G google_type !! t)
  ↔ c ∈ default [] (G !! t) ∨ (c = category ∧ t = google_type).
Proof.
  unfold add_category. destruct (decide (google_type = t)) as [->|Hne].
  - rewrite lookup_insert_eq. simpl. rewrite elem_of_app, list_elem_of_singleton.
    naive_solver.
  - rewrite lookup_insert_ne by done. naive_solver.
Qed.

Lemma add_categories_lookup category G (ts : list string) (t c : string) :
  c ∈ default [] (foldl (add_category category) G ts !! t)
  ↔ c ∈ default [] (G !! t) ∨ (c = category ∧ t ∈ ts).
Proof.
  revert G. induction ts as [|t0 ts IH]; intros G; simpl.
  - set_solver.
  - rewrite IH, add_category_lookup, elem_of_cons. naive_solver.
Qed.

Lemma reverse_mapping_lookup_from G items (t c : string) :
  c ∈ default []
        (foldl (λ G '(category, google_types),
                  foldl (add_category category) G google_types) G items
         !! t)
  ↔ c ∈ default [] (G !! t) ∨ ∃ ts, (c, ts) ∈ items ∧ t ∈ ts.
Proof.
  revert G. induction items as [|[cat ts0] items IH]; intros G; simpl.
  - set_solver.
  - rewrite IH, add_categories_lookup. split.
    + intros [[?|[-> ?]]|(ts & ? & ?)]; [by left|right..].
      * exists ts0. split; [apply list_elem_of_here|done].
      * exists ts. split; [by apply list_elem_of_further|done].
    + intros [?|(ts & [Heq|?]%elem_of_cons & ?)]; [by left; left| |].
      * injection Heq as -> ->. left. by right.
      * right. eauto.
Qed.

Lemma dict_get_elem items (key t : string) :
  NoDup items.*1 →
  t ∈ dict_get items key ↔ ∃ ts, (key, ts) ∈ items ∧ t ∈ ts.
Proof.
  unfold dict_get. induction items as [|[k ts0] items IH]; simpl.
  - intros _. set_solver.
  - intros [Hk Hnd]%NoDup_cons. case_bool_decide as Hkey; simpl in *.
    + subst k. split.
      * intros Ht. exists ts0. split; [apply list_elem_of_here|done].
      * intros (ts & [Heq|Hin]%elem_of_cons & Ht).
        -- by injection Heq as ->.
        -- exfalso. apply Hk. apply list_elem_of_fmap. by exists (key, ts).
    + rewrite IH by done. split.
      * intros (ts & ? & ?). exists ts.
        split; [by apply list_elem_of_further|done].
      * intros (ts & [Heq|Hin]%elem_of_cons & Ht); [|eauto].
        by injection Heq as -> ->.
Qed.

(** The reverse table agrees with the mapping it is built from: a category
    is listed for a Google type exactly when the type is listed for the
    category. *)
Theorem reverse_mapping_agrees (category google_type : string) :
  category ∈ get_categories_for_google_type google_type
  ↔ google_type ∈ get_google_types_for_category category.
Proof.
  unfold get_categories_for_google_type, GOOGLE_TYPE_TO_CATEGORIES,
    reverse_mapping, get_google_types_for_category.
  rewrite reverse_mapping_lookup_from, dict_get_elem.
  - rewrite lookup_empty. set_solver.
  - apply (bool_decide_unpack _). vm_compute. reflexivity.
Qed.

#[local] Opaque is_valid_google_type COMMON_GOOGLE_TYPES
  GOOGLE_TYPE_TO_CATEGORIES get_categories_for_google_type
  get_google_types_for_category CUSTOM_CATEGORY_MAPPING.

(** The state of the loop of [filter_supported_types]. *)
Lemma filter_fold (seen : gset string) (res l : list string) :
  seen = list_to_set res → NoDup res →
  ∃ r,
    foldl filter_step (seen, res) l = (list_to_set (res ++ r), res ++ r)
    ∧ r `sublist_of` l
    ∧ NoDup (res ++ r)
    ∧ (∀ t, t ∈ r ↔ t ∈ l ∧ is_valid_google_type t = true ∧ t ∉ res).
Proof.
  revert seen res. induction l as [|t0 l IH]; intros seen res -> Hnd.
  - exists []. rewrite app_nil_r. split_and!; [reflexivity|constructor|exact Hnd|].
    intros t. split.
    + intros Ht. by apply elem_of_nil in Ht.
    + intros [Ht _]. by apply elem_of_nil in Ht.
  - cbn [foldl]. unfold filter_step at 2. cbn [fst snd].
    destruct (is_valid_google_type t0) eqn:Hv; cbn [andb].
    + destruct (decide (t0 ∈ res)) as [Hin|Hnin].
      * rewrite bool_decide_eq_true_2 by (apply elem_of_list_to_set; exact Hin).
        cbn [negb].
        destruct (IH (list_to_set res) res eq_refl Hnd)
          as (r & Hf & Hsub & Hnd' & Hr).
        exists r. rewrite Hf.
        split_and!; [reflexivity|apply sublist_cons; exact Hsub|exact Hnd'|].
        intros t. rewrite Hr, elem_of_cons. split.
        -- intros (H1 & H2 & H3). split_and!; [right; exact H1|exact H2|exact H3].
        -- intros ([-> |H1] & H2 & H3); [contradiction|].
           split_and!; assumption.
      * rewrite bool_decide_eq_false_2
          by (rewrite elem_of_list_to_set; exact Hnin).
        cbn [negb].
        assert (({[t0]} ∪ list_to_set res : gset string)
                = list_to_set (res ++ [t0])) as ->.
        { rewrite list_to_set_app_L. cbn [list_to_set].
          rewrite union_empty_r_L. apply union_comm_L. }
        destruct (IH (list_to_set (res ++ [t0])) (res ++ [t0]) eq_refl)
          as (r & Hf & Hsub & Hnd' & Hr).
        { apply NoDup_app. split_and!; [exact Hnd| |apply NoDup_singleton].
          intros x Hx Hx'. apply list_elem_of_singleton in Hx'. congruence. }
        exists (t0 :: r). rewrite Hf. rewrite <-!app_assoc. cbn [app].
        rewrite <-app_assoc in Hnd'. cbn [app] in Hnd'.
        split_and!; [reflexivity|apply sublist_skip; exact Hsub|exact Hnd'|].
        intros t. rewrite !elem_of_cons, Hr. split.
        -- intros [-> |(H1 & H2 & H3)].
           ++ split_and!; [left; reflexivity|exact Hv|exact Hnin].
           ++ split_and!; [right; exact H1|exact H2|].
              intros Ht. apply H3, elem_of_app. left. exact Ht.
        -- intros ([-> |H1] & H2 & H3); [left; reflexivity|].
           destruct (decide (t = t0)) as [-> |Hne]; [left; reflexivity|].
           right. split_and!; [exact H1|exact H2|].
           intros [Ht|Ht]%elem_of_app; [contradiction|].
           apply list_elem_of_singleton in Ht. contradiction.
    + destruct (IH (list_to_set res) res eq_refl Hnd)
        as (r & Hf & Hsub & Hnd' & Hr).
      exists r. rewrite Hf.
      split_and!; [reflexivity|apply sublist_cons; exact Hsub|exact Hnd'|].
      intros t. rewrite Hr, elem_of_cons. split.
      * intros (H1 & H2 & H3). split_and!; [right; exact H1|exact H2|exact H3].
      * intros ([-> |H1] & H2 & H3); [congruence|].
        split_and!; assumption.
Qed.

Lemma filter_supported_types_members (google_types : list string) :
  NoDup (filter_supported_types google_types)
  ∧ filter_supported_types google_types `sublist_of` google_types
  ∧ ∀ t, t ∈ filter_supported_types google_types
         ↔ t ∈ google_types ∧ is_valid_google_type t = true.
Proof.
  unfold filter_supported_types.
  destruct (filter_fold ∅ [] google_types) as (r & -> & Hsub & Hnd & Hr);
    [reflexivity|constructor|].
  cbn [snd app] in *. split_and!; [exact Hnd|exact Hsub|].
  intros t. rewrite Hr. split.
  - intros (H1 & H2 & _). by split.
  - intros (H1 & H2). split_and!; [exact H1|exact H2|].
    intros Ht. by apply elem_of_nil in Ht.
Qed.

(** One more turn of the loop: the type is appended when it is supported
    and not yet in the result. *)
Lemma filter_supported_types_snoc (l : list string) (t : string) :
  filter_supported_types (l ++ [t])
  = if is_valid_google_type t
       && negb (bool_decide (t ∈ filter_supported_types l))
    then filter_supported_types l ++ [t]
    else filter_supported_types l.
Proof.
  unfold filter_supported_types. rewrite foldl_snoc.
  destruct (filter_fold ∅ [] l) as (r & -> & _); [reflexivity|constructor|].
  cbn [app snd]. unfold filter_step. cbn [fst snd].
  rewrite (bool_decide_ext (t ∈ (list_to_set r : gset string)) (t ∈ r))
    by apply elem_of_list_to_set.
  by destruct (is_valid_google_type t && negb (bool_decide (t ∈ r))).
Qed.

Lemma first_occurrences_snoc (l : list string) (t : string) :
  first_occurrences (l ++ [t])
  = if bool_decide (t ∈ l) then first_occurrences l
    else first_occurrences l ++ [t].
Proof.
  unfold first_occurrences. induction l as [|x l IH].
  - rewrite bool_decide_eq_false_2; [done|]. intros H. by apply elem_of_nil in H.
  - cbn [app foldr]. rewrite IH. clear IH.
    destruct (decide (t ∈ l)) as [Hin|Hnin].
    + rewrite (bool_decide_eq_true_2 (t ∈ l)) by done.
      rewrite (bool_decide_eq_true_2 (t ∈ x :: l)); [done|].
      by apply list_elem_of_further.
    + rewrite (bool_decide_eq_false_2 (t ∈ l)) by done.
      rewrite filter_app. destruct (decide (t = x)) as [->|Hne].
      * rewrite (bool_decide_eq_true_2 (x ∈ x :: l))
          by apply list_elem_of_here.
        rewrite filter_cons_False by (intros H; by apply H).
        rewrite filter_nil. by rewrite app_nil_r.
      * rewrite (bool_decide_eq_false_2 (t ∈ x :: l)).
        -- rewrite filter_cons_True by done. by rewrite filter_nil.
        -- intros [H|H]%elem_of_cons; [by apply Hne|by apply Hnin].
Qed.

Lemma filter_supported_types_first (google_types : list string) :
  filter_supported_types google_types
  = first_occurrences
      (filter (λ t, is_valid_google_type t = true) google_types).
Proof.
  induction google_types as [|t l IH] using rev_ind; [done|].
  rewrite filter_supported_types_snoc, filter_app.
  destruct (is_valid_google_type t) eqn:Hv; cbn [andb].
  - rewrite filter_cons_True, filter_nil by done.
    rewrite first_occurrences_snoc, <-IH.
    rewrite (bool_decide_ext
               (t ∈ filter (λ t, is_valid_google_type t = true) l)
               (t ∈ filter_supported_types l)).
    + by destruct (bool_decide (t ∈ filter_supported_types l)).
    + destruct (filter_supported_types_members l) as (_ & _ & Hin).
      rewrite Hin, list_elem_of_filter. split; intros [? ?]; by split.
  - rewrite filter_cons_False, filter_nil by (rewrite Hv; discriminate).
    by rewrite app_nil_r.
Qed.

(** [filter_supported_types] returns the supported types of its input,
    each once, in the order of their first occurrence: it is the list of
    first occurrences of the supported entries of the input.  So the result
    has no duplicates, is a subsequence of the input, and holds a type
    exactly when the input does and the type is supported. *)
Theorem filter_supported_types_spec (google_types : list string) :
  filter_supported_types google_types
  = first_occurrences
      (filter (λ t, is_valid_google_type t = true) google_types)
  ∧ NoDup (filter_supported_types google_types)
  ∧ filter_supported_types google_types `sublist_of` google_types
  ∧ ∀ t, t ∈ filter_supported_types google_types
         ↔ t ∈ google_types ∧ is_valid_google_type t = true.
Proof.
  split; [apply filter_supported_types_first|].
  apply filter_supported_types_members.
Qed.

Lemma filter_supported_types_example :
  filter_supported_types ["park"; "spa"; "cafe"; "park"; "cafe"]
  = ["park"; "cafe"].
Proof. vm_compute. reflexivity. Qed.

Lemma filter_fold_fresh (res l : list string) :
  NoDup (res ++ l) → Forall (λ t, is_valid_google_type t = true) l →
  foldl filter_step (list_to_set res, res) l
  = (list_to_set (res ++ l), res ++ l).
Proof.
  revert res. induction l as [|t0 l IH]; intros res Hnd Hval.
  - by rewrite app_nil_r.
  - apply Forall_cons in Hval as [Hv Hval]. cbn [foldl].
    unfold filter_step at 2. cbn [fst snd]. rewrite Hv. cbn [andb].
    assert (t0 ∉ res) as Hfresh.
    { apply NoDup_app in Hnd as (_ & Hdis & _). intros Hin.
      apply (Hdis t0 Hin), list_elem_of_here. }
    rewrite bool_decide_eq_false_2
      by (rewrite elem_of_list_to_set; exact Hfresh).
    cbn [negb].
    assert (({[t0]} ∪ list_to_set res : gset string)
            = list_to_set (res ++ [t0])) as ->.
    { rewrite list_to_set_app_L. cbn [list_to_set].
      rewrite union_empty_r_L. apply union_comm_L. }
    rewrite IH.
    + by rewrite <-!app_assoc.
    + by rewrite <-app_assoc.
    + exact Hval.
Qed.

(** Filtering twice is filtering once. *)
Theorem filter_supported_types_idempotent (google_types : list string) :
  filter_supported_types (filter_supported_types google_types)
  = filter_supported_types google_types.
Proof.
  destruct (filter_supported_types_members google_types) as (Hnd & _ & Hin).
  unfold filter_supported_types at 1.
  rewrite (filter_fold_fresh [] _); [done|done|].
  apply Forall_forall. intros t Ht. by apply Hin in Ht as [_ ?].
Qed.

Lemma found_categories_from (found : gset string) (place_types : list string)
    (c : string) :
  c ∈ foldl (λ found place_type,
               if is_valid_google_type place_type
               then found
                    ∪ list_to_set (get_categories_for_google_type place_type)
               else found) found place_types
  ↔ c ∈ found
    ∨ ∃ t, t ∈ place_types ∧ is_valid_google_type t = true
           ∧ c ∈ get_categories_for_google_type t.
Proof.
  revert found. induction place_types as [|t0 l IH]; intros found;
    cbn [foldl].
  - split; [by left|]. intros [?|(t & Ht & _)]; [done|].
    by apply elem_of_nil in Ht.
  - rewrite IH. destruct (is_valid_google_type t0) eqn:Hv.
    + rewrite elem_of_union, elem_of_list_to_set. split.
      * intros [[?|?]|(t & ? & ? & ?)]; [by left|right..].
        -- exists t0. split_and!; [apply list_elem_of_here|done..].
        -- exists t. split_and!; [by apply list_elem_of_further|done..].
      * intros [?|(t & [->|?]%elem_of_cons & ? & ?)];
          [by left; left|by left; right|right; eauto].
    + split.
      * intros [?|(t & ? & ? & ?)]; [by left|right].
        exists t. split_and!; [by apply list_elem_of_further|done..].
      * intros [?|(t & [->|?]%elem_of_cons & ? & ?)];
          [by left|congruence|right; eauto].
Qed.

Lemma found_categories_elem (place_types : list string) (c : string) :
  c ∈ found_categories place_types
  ↔ ∃ t, t ∈ place_types ∧ is_valid_google_type t = true
         ∧ c ∈ get_categories_for_google_type t.
Proof.
  unfold found_categories. rewrite found_categories_from.
  split; [intros [Hc|?]; [by apply not_elem_of_empty in Hc|done]|by right].
Qed.

(** [find] returns the first element that passes the test. *)
Lemma find_first {A} (P : A → bool) (l : list A) x :
  find P l = Some x →
  ∃ l1 l2, l = l1 ++ x :: l2 ∧ P x = true ∧ Forall (λ y, P y = false) l1.
Proof.
  induction l as [|y l IH]; simpl; [done|].
  destruct (P y) eqn:Hy.
  - intros [= ->]. exists [], l. by split_and!.
  - intros (l1 & l2 & -> & Hx & Hl1)%IH.
    exists (y :: l1), l2. split_and!; [done..|by constructor].
Qed.

Lemma NoDup_split_unique {A} (l1 l2 k1 k2 : list A) (x : A) :
  NoDup (l1 ++ x :: l2) → l1 ++ x :: l2 = k1 ++ x :: k2 →
  l1 = k1 ∧ l2 = k2.
Proof.
  revert k1. induction l1 as [|a l1 IH]; intros [|y k1]; cbn [app];
    intros Hnd Heq.
  - by injection Heq as ->.
  - injection Heq as <- ->. apply NoDup_cons in Hnd as [Hx _].
    exfalso. apply Hx, elem_of_app. right. apply list_elem_of_here.
  - injection Heq as -> <-. apply NoDup_cons in Hnd as [Hx _].
    exfalso. apply Hx, elem_of_app. right. apply list_elem_of_here.
  - injection Heq as -> Heq. apply NoDup_cons in Hnd as [_ Hnd].
    destruct (IH k1 Hnd Heq) as [-> ->]. done.
Qed.

(** The primary category of a list of place types.  It is ["other"] when
    no supported type of the list belongs to a category; otherwise it is a
    category of one of the supported types.  No category that stands
    after it in the priority list is available, and when it is not in the
    priority list none of the priority categories is. *)
Theorem primary_category_spec (place_types : list string) :
  (found_categories place_types = ∅
   → get_primary_category_for_types place_types = "other")
  ∧ (found_categories place_types ≠ ∅
     → ∃ t, t ∈ place_types ∧ is_valid_google_type t = true
            ∧ get_primary_category_for_types place_types
              ∈ get_categories_for_google_type t)
  ∧ (∀ lower higher,
       category_priority
       = lower ++ get_primary_category_for_types place_types :: higher →
       Forall (λ c, c ∉ found_categories place_types) higher)
  ∧ (get_primary_category_for_types place_types ∉ category_priority →
     Forall (λ c, c ∉ found_categories place_types) category_priority).
Proof.
  unfold get_primary_category_for_types. cbv zeta.
  set (found := found_categories place_types).
  destruct (find _ (reverse category_priority)) as [c|] eqn:Hfind.
  - apply find_first in Hfind as (l1 & l2 & Hrev & Hc & Hl1).
    apply bool_decide_eq_true in Hc.
    assert (category_priority = reverse l2 ++ c :: reverse l1) as Hprio.
    { rewrite <-(reverse_involutive category_priority), Hrev.
      by rewrite reverse_app, reverse_cons, <-app_assoc. }
    split_and!.
    + intros Hempty. rewrite Hempty in Hc. by apply not_elem_of_empty in Hc.
    + intros _. by apply found_categories_elem.
    + intros lower higher Heq.
      assert (higher = reverse l1) as ->.
      { assert (NoDup category_priority) as Hnd
          by (apply (bool_decide_unpack _); vm_compute; reflexivity).
        rewrite Hprio in Heq, Hnd.
        by destruct (NoDup_split_unique _ _ _ _ _ Hnd Heq) as [_ <-]. }
      apply Forall_reverse. eapply Forall_impl; [exact Hl1|]. simpl.
      intros y Hy. by apply bool_decide_eq_false in Hy.
    + intros Hnot. exfalso. apply Hnot. rewrite Hprio.
      apply elem_of_app. right. apply list_elem_of_here.
  - assert (Forall (λ c, c ∉ found) category_priority) as Hnone.
    { apply Forall_forall. intros c Hc.
      eapply find_none in Hfind; [by apply bool_decide_eq_false in Hfind|].
      apply list_elem_of_In. by apply elem_of_reverse. }
    destruct (elements found) as [|c cs] eqn:Hel.
    + apply elements_empty_inv in Hel. apply leibniz_equiv in Hel.
      split_and!; [done|done| |done].
      intros lower higher Heq. rewrite Heq in Hnone.
      by apply Forall_app in Hnone as [_ [_ ?]%Forall_cons].
    + assert (c ∈ found) as Hc.
      { apply elem_of_elements. rewrite Hel. apply list_elem_of_here. }
      split_and!.
      * intros Hempty. rewrite Hempty in Hc.
        by apply not_elem_of_empty in Hc.
      * intros _. by apply found_categories_elem.
      * intros lower higher Heq. rewrite Heq in Hnone.
        by apply Forall_app in Hnone as [_ [_ ?]%Forall_cons].
      * done.
Qed.

(** [_map_categories_to_google_types] returns, each once, the supported
    Google types of the given categories; a category the mapping does not
    know adds nothing. *)
Theorem map_categories_spec (categories : list string) :
  NoDup (_map_categories_to_google_types categories)
  ∧ ∀ t, t ∈ _map_categories_to_google_types categories
         ↔ is_valid_google_type t = true
           ∧ ∃ c, c ∈ categories ∧ t ∈ get_google_types_for_category c.
Proof.
  unfold _map_categories_to_google_types. cbv zeta.
  assert (∀ acc t,
    t ∈ foldl (λ acc category,
                 acc ++ get_google_types_for_category category)
          acc categories
    ↔ t ∈ acc
      ∨ ∃ c, c ∈ categories ∧ t ∈ get_google_types_for_category c) as Hacc.
  { induction categories as [|c0 l IH]; intros acc t; cbn [foldl].
    - split; [by left|]. intros [?|(c & Hc & _)]; [done|].
      by apply elem_of_nil in Hc.
    - rewrite IH, elem_of_app. split.
      + intros [[?|?]|(c & ? & ?)]; [by left|right..].
        * exists c0. split; [apply list_elem_of_here|done].
        * exists c. split; [by apply list_elem_of_further|done].
      + intros [?|(c & [->|?]%elem_of_cons & ?)];
          [by left; left|by left; right|right; eauto]. }
  split.
  - apply NoDup_filter, NoDup_elements.
  - intros t. rewrite list_elem_of_filter, elem_of_elements,
      elem_of_list_to_set, Hacc.
    split; intros [Hv Hc]; (split; [done|]).
    + destruct Hc as [Hc|Hc]; [|exact Hc].
      destruct (proj1 (elem_of_nil t) Hc).
    + right. exact Hc.
Qed.

End PlaceTypesFacts.

(** ** The API call counter *)

Section ApiCounterFacts.
Import ApiCounter.
Context (max_api_calls_per_day : Z).
Implicit Types (self : APICounter) (today day : date).

Lemma record_call_today today self :
  recorded (record_call today self) today = recorded self today + 1.
Proof.
  unfold recorded, record_call. simpl. rewrite lookup_alter_eq.
  destruct (call_count self !! today) as [n|] eqn:Hn.
  - by rewrite Hn.
  - by rewrite lookup_insert_eq.
Qed.

Lemma record_call_other today day self :
  day ≠ today → recorded (record_call today self) day = recorded self day.
Proof.
  intros Hne. unfold recorded, record_call. simpl.
  rewrite lookup_alter_ne by done.
  destruct (call_count self !! today); [done|].
  by rewrite lookup_insert_ne.
Qed.

(** Recording a call adds one to the count of the day and changes neither
    the count of any other day nor the date the counter was last checked
    on; the remaining budget of the day drops by one unless it was
    already zero. *)
Theorem record_call_spec today self :
  recorded (record_call today self) today = recorded self today + 1
  ∧ (∀ day, day ≠ today →
       recorded (record_call today self) day = recorded self day)
  ∧ current_date (record_call today self) = current_date self
  ∧ get_remaining_calls max_api_calls_per_day today (record_call today self)
    = (0 `max`
         (get_remaining_calls max_api_calls_per_day today self - 1))%Z.
Proof.
  split_and!; [apply record_call_today| |done|].
  - intros day Hne. by apply record_call_other.
  - pose proof (record_call_today today self) as Hrec.
    unfold get_remaining_calls, recorded in *. cbv zeta.
    rewrite Hrec. lia.
Qed.

(** The check and the remaining budget agree: a call is allowed exactly
    when, in the state the check leaves, the remaining budget of the day
    is positive. *)
Theorem can_make_call_remaining today self :
  (can_make_call max_api_calls_per_day today self).1 = true
  ↔ (0 < get_remaining_calls max_api_calls_per_day today
           (can_make_call max_api_calls_per_day today self).2)%Z.
Proof.
  unfold can_make_call, get_remaining_calls. cbv zeta. simpl.
  rewrite Z.ltb_lt. lia.
Qed.

(** The first check on a new day empties the counter: calls recorded on
    earlier days are dropped, and so is a call that was recorded on the
    new day before that check (one that was allowed just before midnight
    and answered just after). *)
Theorem can_make_call_new_day today self :
  today ≠ current_date self →
  can_make_call max_api_calls_per_day today (record_call today self)
  = ((0 <? max_api_calls_per_day)%Z, new_counter today)
  ∧ ∀ day,
      recorded
        (can_make_call max_api_calls_per_day today
           (record_call today self)).2 day = 0.
Proof.
  intros Hne. unfold can_make_call. cbv zeta.
  change (current_date (record_call today self)) with (current_date self).
  rewrite bool_decide_eq_true_2 by done. simpl. split; [done|].
  intros day. unfold recorded. simpl. by rewrite lookup_empty.
Qed.




End ApiCounterFacts.

Lemma can_make_call_new_day_witness :
  ApiCounter.can_make_call 1000 8 (ApiCounter.record_call 8
                                      (ApiCounter.new_counter 7))
  = ((0 <? 1000)%Z, ApiCounter.new_counter 8)
  ∧ ∀ day,
      ApiCounter.recorded
        (ApiCounter.can_make_call 1000 8
           (ApiCounter.record_call 8 (ApiCounter.new_counter 7))).2 day = 0.
Proof.
  apply (can_make_call_new_day 1000 8 (ApiCounter.new_counter 7)).
  discriminate.
Defined.

(** With a maximum of 2 and one call on record, a [get_directions] whose
    two requests are answered leaves 3 calls on record. *)
Lemma get_directions_overshoots :
  ApiCounter.recorded
    (ApiCounter.get_directions 2 7 ApiCounter.NearestPlace
       ApiCounter.Answered
       (ApiCounter.record_call 7 (ApiCounter.new_counter 7))).2 7 = 3.
Proof. vm_compute. reflexivity. Qed.


(** ** Sanitizing a feature dict *)

Section SanitizeFacts.
Import Sanitize.
Implicit Types (d : list (string * pyval)) (clean : list (string * float)).

Lemma sanitize_raised d :
  foldl (λ acc kv, clean ← acc; sanitize_step clean kv) None d = None.
Proof. by induction d. Qed.

Lemma keep_spec clean k fv :
  keep clean k fv
  = if is_finite fv then clean ++ [(k, fv)] else clean.
Proof. unfold keep, is_finite. by destruct (is_nan fv || is_infinity fv). Qed.

Lemma sanitize_snoc d kv :
  _sanitize_feature_dict (d ++ [kv])
  = clean ← _sanitize_feature_dict d; sanitize_step clean kv.
Proof. unfold _sanitize_feature_dict. by rewrite foldl_snoc. Qed.

Lemma sanitize_step_spec clean k v clean' :
  sanitize_step clean (k, v) = Some clean' →
  (clean' = clean
   ∧ ∀ fv, yields v fv → is_finite fv = false)
  ∨ ∃ fv, clean' = clean ++ [(k, fv)] ∧ yields v fv
          ∧ is_finite fv = true.
Proof.
  unfold sanitize_step.
  destruct v as [|b|z|f|[fv|]]; simpl; rewrite ?keep_spec.
  - intros [= <-]. left. split; [done|]. by intros fv [].
  - intros [= <-].
    right. exists (if b then 1 else 0)%float. by destruct b.
  - destruct (float_of_int z) as [fv|] eqn:Hz; [|done]. simpl.
    rewrite keep_spec. intros [= <-].
    destruct (is_finite fv) eqn:Hfin.
    + right. by exists fv.
    + left. split; [done|]. intros fv' [= <-]. done.
  - intros [= <-]. destruct (is_finite f) eqn:Hfin.
    + right. by exists f.
    + left. split; [done|]. by intros fv' ->.
  - intros [= <-]. destruct (is_finite fv) eqn:Hfin.
    + right. by exists fv.
    + left. split; [done|]. by intros fv' [= <-].
  - intros [= <-]. left. split; [done|]. by intros fv' [=].
Qed.

(** When [_sanitize_feature_dict] returns, the result holds, in the order
    of the input, exactly the entries whose value converts to a finite
    float, under their own key and with the converted value: [None],
    NaN, the infinities and what [float] rejects are left out. *)
Theorem sanitize_spec d clean :
  _sanitize_feature_dict d = Some clean →
  clean.*1 `sublist_of` d.*1
  ∧ ∀ k fv, (k, fv) ∈ clean
            ↔ ∃ v, (k, v) ∈ d ∧ yields v fv ∧ is_finite fv = true.
Proof.
  revert clean. induction d as [|[k0 v0] d IH] using rev_ind; intros clean.
  - intros [= <-]. split; [constructor|]. intros k fv. split.
    + by intros ?%elem_of_nil.
    + by intros (v & ?%elem_of_nil & _).
  - rewrite sanitize_snoc.
    destruct (_sanitize_feature_dict d) as [clean0|]; [|done]. simpl.
    destruct (IH clean0 eq_refl) as [Hsub Hin].
    intros [(-> & Hno)|(fv0 & -> & Hy & Hfin)]%sanitize_step_spec.
    + split.
      * rewrite fmap_app. by apply sublist_inserts_r.
      * intros k fv. rewrite Hin. split.
        -- intros (v & ? & ? & ?). exists v.
           split_and!; [apply elem_of_app; by left|done..].
        -- intros (v & [?|Hlast]%elem_of_app & Hy & Hfin); [by eauto|].
           apply list_elem_of_singleton in Hlast. injection Hlast as -> ->.
           apply Hno in Hy. congruence.
    + split.
      * rewrite !fmap_app. by apply sublist_app.
      * intros k fv. rewrite elem_of_app, Hin, list_elem_of_singleton.
        split.
        -- intros [(v & ? & ? & ?)|[= -> ->]].
           ++ exists v. split_and!; [apply elem_of_app; by left|done..].
           ++ exists v0. split_and!; [|done..].
              apply elem_of_app. right. apply list_elem_of_here.
        -- intros (v & [?|Hlast]%elem_of_app & Hy' & Hfin'); [left; eauto|].
           apply list_elem_of_singleton in Hlast. injection Hlast as -> ->.
           right. f_equal.
           destruct v0 as [|b|z|f|o]; simpl in *;
             [contradiction|congruence..].
Qed.

(** [_sanitize_feature_dict] raises exactly when some value is an [int]
    too large for a float. *)
Theorem sanitize_raises d :
  _sanitize_feature_dict d = None
  ↔ ∃ k z, (k, VInt z) ∈ d ∧ float_of_int z = None.
Proof.
  induction d as [|[k0 v0] d IH] using rev_ind.
  - split; [done|]. by intros (k & z & ?%elem_of_nil & _).
  - rewrite sanitize_snoc.
    destruct (_sanitize_feature_dict d) as [clean0|] eqn:Hd; simpl.
    + split.
      * intros Hstep. exists k0.
        destruct v0 as [|b|z|f|[fv|]]; simpl in Hstep; try done.
        exists z. split; [apply elem_of_app; right; apply list_elem_of_here|].
        by destruct (float_of_int z).
      * intros (k & z & [Hin|Hlast]%elem_of_app & Hz).
        -- assert (Some clean0 = None) as Habs; [|done].
           apply IH. eauto.
        -- apply list_elem_of_singleton in Hlast. injection Hlast as <- <-.
           simpl. by rewrite Hz.
    + split; [|done]. intros _.
      destruct (proj1 IH eq_refl) as (k & z & Hin & Hz).
      exists k, z. split; [apply elem_of_app; by left|done].
Qed.

Lemma sanitize_sample :
  _sanitize_feature_dict sample_features
  = Some [("rating", 4.5); ("count", 3); ("open", 1); ("text", 2.5)]%float.
Proof. vm_compute. reflexivity. Qed.

Lemma sanitize_spec_witness :
  [("rating", 4.5); ("count", 3); ("open", 1); ("text", 2.5)]%float.*1
    `sublist_of` sample_features.*1
  ∧ ∀ k fv,
      (k, fv) ∈ [("rating", 4.5); ("count", 3); ("open", 1);
                 ("text", 2.5)]%float
      ↔ ∃ v, (k, v) ∈ sample_features ∧ yields v fv ∧ is_finite fv = true.
Proof.
  apply (sanitize_spec sample_features). vm_compute. reflexivity.
Defined.

End SanitizeFacts.
